(** * twilio-gemini-caller: codec engine, tool registry and call session

    A shallow embedding of

      - [backend/src/utils/audioCodec.ts]   (module [AudioCodec]),
      - [backend/src/services/toolRegistry.ts] (module [ToolRegistry]),
      - [backend/src/services/geminiClient.ts] and
        [backend/src/websocket/callHandler.ts] (module [CallHandler]),
      - the queue of pending [receive] calls of [geminiClient.ts]
        (module [LiveClient]) and the tool declarations of
        [toolRegistry.ts] (module [ToolDeclarations]),

    together with the properties the specification states about them
    and further properties of the code.

    Conventions.  An [Int16Array] is a [list Z] whose elements lie in
    [-32768, 32767]; every store into one goes through [to_int16], as the
    typed array does.  A [Buffer] of companded audio is a [list Z] of
    bytes.  A JavaScript number that may be [undefined]/[NaN] (an
    out-of-range typed-array read) is an [option Z].  Code that can throw
    returns a [result]. *)

From stdpp Require Import gmap strings list.
From Stdlib Require Import ZArith QArith Qround Lia Ascii.

Local Open Scope Z_scope.

(** ** Results of code that may throw *)

Inductive result (A : Type) : Type :=
| Ok (a : A)
| Throw (e : string).
Arguments Ok {A} a.
Arguments Throw {A} e.

Definition rbind {A B} (r : result A) (k : A → result B) : result B :=
  match r with
  | Ok a => k a
  | Throw e => Throw e
  end.

(** ** Typed arrays *)

Definition INT16_MIN : Z := -32768.
Definition INT16_MAX : Z := 32767.

Definition is_int16 (v : Z) : Prop := INT16_MIN ≤ v ≤ INT16_MAX.

Definition pcm_frame (samples : list Z) : Prop := Forall is_int16 samples.

(** ToInt16 of an integer-valued number. *)
Definition to_int16 (v : Z) : Z := (v + 32768) `mod` 65536 - 32768.

(** [a[i]] on a typed array: [undefined] outside [0 .. length-1]. *)
Definition ta_get (a : list Z) (i : Z) : option Z :=
  if i <? 0 then None else a !! Z.to_nat i.

(** [a[i] = v] on an [Int16Array]: [undefined] and [NaN] are stored as 0,
    and a store outside [0 .. length-1] does nothing. *)
Definition ta_set (a : list Z) (i : Z) (v : option Z) : list Z :=
  if i <? 0 then a else <[Z.to_nat i := to_int16 (default 0 v)]> a.

(** Arithmetic on numbers that may be [NaN]. *)
Definition num2 (f : Z → Z → Z) (a b : option Z) : option Z :=
  x ← a; y ← b; Some (f x y).

Module AudioCodec.

(** *** G.711 mu-law constants *)

Definition BIAS : Z := 0x84.
Definition CLIP : Z := 32635.

(** The body of the loop of [generateMuLawTable] for index [i]. *)
Definition mulaw_entry (i : Z) : Z :=
  let byte := Z.land (Z.lnot i) 0xff in
  let sign := Z.land byte 0x80 in
  let exponent := Z.land (Z.shiftr byte 4) 0x07 in
  let mantissa := Z.land byte 0x0f in
  let sample := Z.shiftl (Z.shiftl mantissa 3 + 0x84) exponent in
  let sample := sample - BIAS in
  if sign =? 0 then sample else - sample.

Definition generateMuLawTable : list Z :=
  foldl (λ table i, ta_set table i (Some (mulaw_entry i)))
        (replicate 256 0) (seqZ 0 256).

Definition MU_LAW_TABLE : list Z := Eval vm_compute in generateMuLawTable.

(** *** pcm2ulaw *)

(** The segment number computed for a sample:
    [Math.floor(Math.log2(sample)) - 7] after clipping and biasing.  On
    the integers 132 .. 32767 the floor of the binary logarithm is
    [Z.log2]. *)
Definition magnitude (s : Z) : Z :=
  let sample := if s <? 0 then - s else s in
  let sample := if sample >? CLIP then CLIP else sample in
  sample + BIAS.

Definition exponent_of (s : Z) : Z := Z.log2 (magnitude s) - 7.

(** The body of the loop of [pcm2ulaw] for one sample. *)
Definition encode_sample (s : Z) : Z :=
  let sign := if s <? 0 then 0x80 else 0 in
  let sample := magnitude s in
  let exponent := Z.log2 sample - 7 in
  let mantissa := Z.land (Z.shiftr sample (exponent + 3)) 0x0f in
  Z.land (Z.lnot (Z.lor (Z.lor sign (Z.shiftl exponent 4)) mantissa)) 0xff.

Definition pcm2ulaw (samples : list Z) : list Z :=
  map encode_sample samples.

(** *** ulaw2pcm *)

Definition decode_byte (b : Z) : Z :=
  to_int16 (default 0 (ta_get MU_LAW_TABLE b)).

Definition ulaw2pcm (data : list Z) : list Z :=
  map decode_byte data.

(** *** resample *)

(** 8 kHz to 24 kHz: one loop iteration. *)
Definition upsample_step (samples output : list Z) (i : Z) : list Z :=
  let s1 := ta_get samples i in
  let s2 := ta_get samples (i + 1) in
  let output := ta_set output (i * 3) s1 in
  let output :=
    ta_set output (i * 3 + 1) (num2 (λ a b, (2 * a + b) `div` 3) s1 s2) in
  ta_set output (i * 3 + 2) (num2 (λ a b, (a + 2 * b) `div` 3) s1 s2).

Definition upsample3 (samples : list Z) : list Z :=
  let len := Z.of_nat (length samples) in
  let output := replicate (length samples * 3) 0 in
  let output := foldl (upsample_step samples) output (seqZ 0 (len - 1)) in
  let lastIdx := len - 1 in
  let output := ta_set output (lastIdx * 3) (ta_get samples lastIdx) in
  let output := ta_set output (lastIdx * 3 + 1) (ta_get samples lastIdx) in
  ta_set output (lastIdx * 3 + 2) (ta_get samples lastIdx).

(** 24 kHz to 8 kHz: one loop iteration. *)
Definition downsample_step (samples output : list Z) (i : Z) : list Z :=
  let idx := i * 3 in
  let sum :=
    num2 Z.add (num2 Z.add (ta_get samples idx) (ta_get samples (idx + 1)))
         (ta_get samples (idx + 2)) in
  ta_set output i ((λ s, s `div` 3) <$> sum).

Definition downsample3 (samples : list Z) : list Z :=
  let len := Z.of_nat (length samples) in
  let outlen := len `div` 3 in
  let output := replicate (Z.to_nat outlen) 0 in
  foldl (downsample_step samples) output (seqZ 0 outlen).

(** Generic linear interpolation: one loop iteration.  The source
    computes in double precision; here the same expressions are
    evaluated exactly, in [Q]. *)
Definition generic_step (samples : list Z) (ratio : Q)
    (output : list Z) (i : Z) : list Z :=
  let srcIndex := (inject_Z i / ratio)%Q in
  let srcIndexFloor := Qfloor srcIndex in
  let srcIndexCeil :=
    Z.min (srcIndexFloor + 1) (Z.of_nat (length samples) - 1) in
  let fraction := (srcIndex - inject_Z srcIndexFloor)%Q in
  let sample1 := ta_get samples srcIndexFloor in
  let sample2 := ta_get samples srcIndexCeil in
  ta_set output i
    (num2 (λ a b, Qfloor (inject_Z a + fraction * inject_Z (b - a))%Q)
          sample1 sample2).

(** [new Int16Array(outputLength)] raises a [RangeError] for a negative
    or infinite length; [NaN] is taken as length 0. *)
Definition generic (samples : list Z) (fromRate toRate : Z)
    : result (list Z) :=
  let len := Z.of_nat (length samples) in
  if fromRate =? 0 then
    (* ratio is +-Infinity, and [0 * Infinity] is [NaN] *)
    if len =? 0 then Ok [] else Throw "RangeError"
  else
    let ratio := (inject_Z toRate / inject_Z fromRate)%Q in
    let outputLength := Qfloor (inject_Z len * ratio)%Q in
    if outputLength <? 0 then Throw "RangeError"
    else
      Ok (foldl (generic_step samples ratio)
                (replicate (Z.to_nat outputLength) 0)
                (seqZ 0 outputLength)).

(** The two fixed-ratio branches and the generic fallback: what
    [resample] does once the rates are known to differ. *)
Definition resample_body (samples : list Z) (fromRate toRate : Z)
    : result (list Z) :=
  if (fromRate =? 8000) && (toRate =? 24000) then Ok (upsample3 samples)
  else if (fromRate =? 24000) && (toRate =? 8000) then
    Ok (downsample3 samples)
  else generic samples fromRate toRate.

(** [resample] on the samples of its argument.  Rates are sample rates
    in Hz. *)
Definition resample (samples : list Z) (fromRate toRate : Z)
    : result (list Z) :=
  if fromRate =? toRate then Ok samples
  else resample_body samples fromRate toRate.

(** [resample] on buffer objects.  A store holds the samples of every
    allocated buffer, a buffer value is an address in it.  With equal
    rates the argument itself is returned ([return data]); otherwise
    [Buffer.from(output.buffer)] allocates a buffer. *)
Definition resample_ref (store : list (list Z)) (data : nat)
    (fromRate toRate : Z) : result (list (list Z) * nat) :=
  if fromRate =? toRate then Ok (store, data)
  else
    match store !! data with
    | None => Throw "TypeError"
    | Some samples =>
        rbind (resample_body samples fromRate toRate)
              (λ output, Ok (store ++ [output], length store))
    end.

(** [calculateRMS] returns [sqrt (sumSquares / n)], and 0 on an empty
    frame.  Its caller only compares the result with a threshold;
    for [t >= 0], [sqrt (s / n) > t] is [s > t * t * n]. *)
Definition sumSquares (samples : list Z) : Z :=
  foldl (λ acc s, acc + s * s) 0 samples.

Definition rms_exceeds (samples : list Z) (threshold : Z) : bool :=
  if threshold <? 0 then true
  else if Z.of_nat (length samples) =? 0 then false
  else sumSquares samples >? threshold * threshold * Z.of_nat (length samples).

(** The distance between neighbouring decoding levels in the segment a
    sample falls in: [8 << exponent]. *)
Definition quant_step (s : Z) : Z := Z.shiftl 8 (exponent_of s).

End AudioCodec.


(** ** Tool registry *)

Module ToolRegistry.

(** Values found in tool arguments and results. *)
Inductive JsVal : Type :=
| JUndefined
| JNull
| JBool (b : bool)
| JNum (n : Z)
| JStr (s : string).

(** [ToolResult]: three optional named fields and an index signature. *)
Record ToolResult : Type := mkToolResult {
  success : option bool;
  message : option string;
  action : option string;
  extra : gmap string JsVal;
}.

(** [executeTool].  [args] is [None] when the caller passes [undefined]
    or [null] where a record is expected; destructuring it then raises a
    [TypeError] (the promise is rejected). *)
Definition executeTool (toolName : string)
    (args : option (gmap string JsVal)) : result ToolResult :=
  if decide (toolName = "end_call") then
    match args with
    | None => Throw "TypeError"
    | Some a =>
        let reason := default JUndefined (a !! "reason") in
        Ok {| success := None;
              message := Some "Ending call...";
              action := Some "end_call";
              extra := {[ "reason" := reason ]} |}
    end
  else
    Ok {| success := None;
          message := None;
          action := None;
          extra := {[ "error" := JStr ("Unknown tool: " +:+ toolName) ]} |}.

End ToolRegistry.

(** ** Call handler *)

Module CallHandler.
Import AudioCodec ToolRegistry.

Definition MAX_CALL_DURATION : Z := 5 * 60 * 1000.
Definition SILENCE_TIMEOUT : Z := 15 * 1000.
Definition BARGE_IN_THRESHOLD : Z := 5000.

(** [getCallScript().openingMessage] *)
Definition openingMessage : string :=
  "Hi! This is an AI demo calling system. How are you today?".

(** *** Messages *)

Inductive ReadyState : Type := CONNECTING | OPEN | CLOSING | CLOSED.

Inductive EventKind : Type := ev_start | ev_media | ev_stop.

Inductive Track : Type := inbound | outbound.

Record StartInfo : Type := mkStartInfo {
  start_streamSid : string;
  start_callSid : string;
  customParameters : option (gmap string string);
}.

(** [payload] is the byte content of the base64 string. *)
Record MediaInfo : Type := mkMediaInfo {
  track : Track;
  payload : list Z;
}.

Record TwilioStreamMessage : Type := mkMessage {
  event : EventKind;
  start : option StartInfo;
  media : option MediaInfo;
}.

(** [data] is the content of the base64 string, as 16-bit samples. *)
Record InlineData : Type := mkInlineData {
  data : list Z;
  mimeType : string;
}.

Record Part : Type := mkPart {
  text : option string;
  inlineData : option InlineData;
}.

Record FunctionCall : Type := mkFunctionCall {
  fc_id : string;
  fc_name : string;
  fc_args : option (gmap string JsVal);
}.

(** A response as the receive loop reads it: [serverContent.turnComplete],
    the function calls of whichever [toolCall] is present, and
    [serverContent.modelTurn.parts]. *)
Record GeminiResponse : Type := mkResponse {
  turnComplete : bool;
  functionCalls : list FunctionCall;
  parts : list Part;
}.

(** *** Session, client and handler state *)

Record LogEntry : Type := mkLogEntry {
  role : string;
  entry_text : string;
  timestamp : Z;
}.

Record CallSession : Type := mkSession {
  callSid : string;
  streamSid : string;
  phoneNumber : string;
  voiceId : string;
  conversationLog : list LogEntry;
  startTime : Z;
  lastActivityTime : Z;
  isActive : bool;
  aiTurnCount : Z;
}.

(** [GeminiClient]: its socket ([None] is [null]) and the setup flag. *)
Record GeminiClient : Type := mkClient {
  g_ws : option ReadyState;
  isSetupComplete : bool;
}.

Inductive TwilioOut : Type :=
| ClearEvent (sid : string)
| MediaEvent (sid : string) (ulaw : list Z).

(** Calls made on the two sockets and on the client, in program order. *)
Inductive Op : Type :=
| WsSend (m : TwilioOut)
| WsClose (code : Z) (why : string)
| GeminiOpen (voiceName : string)
| GeminiIsConnected (answer : bool)
| GeminiSendAudio (pcm : list Z)
| GeminiSendMessage (msg : string)
| GeminiSendToolResponse (toolId functionName : string)
    (ok : option bool) (msg : option string)
| GeminiSocketClose.

(** A pending [setTimeout]; every timer callback of the handler is
    [endCall(reason)]. *)
Record Timer : Type := mkTimer {
  timer_id : nat;
  due : Z;
  reason : string;
}.

(** The variables of one [handleCallWebSocket] closure, the two module
    level singletons ([activeSessions], by its key set, and
    [geminiClient]), the clock and the timer queue of the runtime, and
    what has been done to the outside.  [endLog] lists the reasons
    [endCall] was entered with (its "Ending call" console line). *)
Record State : Type := mkState {
  now : Z;
  timers : list Timer;
  nextTimer : nat;
  phoneNumberVar : string;
  voiceIdVar : string;
  session : option CallSession;
  silenceTimer : option nat;
  maxDurationTimer : option nat;
  activeSessions : gset string;
  geminiClient : GeminiClient;
  twilioWs : ReadyState;
  trace : list Op;
  endLog : list string;
}.

#[global] Instance ReadyState_eq_dec : EqDecision ReadyState.
Proof. solve_decision. Defined.
#[global] Instance Track_eq_dec : EqDecision Track.
Proof. solve_decision. Defined.

(** Field updates. *)

Definition set_now (v : Z) (st : State) : State :=
  {| now := v;
     timers := timers st;
     nextTimer := nextTimer st;
     phoneNumberVar := phoneNumberVar st;
     voiceIdVar := voiceIdVar st;
     session := session st;
     silenceTimer := silenceTimer st;
     maxDurationTimer := maxDurationTimer st;
     activeSessions := activeSessions st;
     geminiClient := geminiClient st;
     twilioWs := twilioWs st;
     trace := trace st;
     endLog := endLog st |}.

Definition set_timers (v : list Timer) (st : State) : State :=
  {| now := now st;
     timers := v;
     nextTimer := nextTimer st;
     phoneNumberVar := phoneNumberVar st;
     voiceIdVar := voiceIdVar st;
     session := session st;
     silenceTimer := silenceTimer st;
     maxDurationTimer := maxDurationTimer st;
     activeSessions := activeSessions st;
     geminiClient := geminiClient st;
     twilioWs := twilioWs st;
     trace := trace st;
     endLog := endLog st |}.

Definition set_nextTimer (v : nat) (st : State) : State :=
  {| now := now st;
     timers := timers st;
     nextTimer := v;
     phoneNumberVar := phoneNumberVar st;
     voiceIdVar := voiceIdVar st;
     session := session st;
     silenceTimer := silenceTimer st;
     maxDurationTimer := maxDurationTimer st;
     activeSessions := activeSessions st;
     geminiClient := geminiClient st;
     twilioWs := twilioWs st;
     trace := trace st;
     endLog := endLog st |}.

Definition set_phoneNumberVar (v : string) (st : State) : State :=
  {| now := now st;
     timers := timers st;
     nextTimer := nextTimer st;
     phoneNumberVar := v;
     voiceIdVar := voiceIdVar st;
     session := session st;
     silenceTimer := silenceTimer st;
     maxDurationTimer := maxDurationTimer st;
     activeSessions := activeSessions st;
     geminiClient := geminiClient st;
     twilioWs := twilioWs st;
     trace := trace st;
     endLog := endLog st |}.

Definition set_voiceIdVar (v : string) (st : State) : State :=
  {| now := now st;
     timers := timers st;
     nextTimer := nextTimer st;
     phoneNumberVar := phoneNumberVar st;
     voiceIdVar := v;
     session := session st;
     silenceTimer := silenceTimer st;
     maxDurationTimer := maxDurationTimer st;
     activeSessions := activeSessions st;
     geminiClient := geminiClient st;
     twilioWs := twilioWs st;
     trace := trace st;
     endLog := endLog st |}.

Definition set_session (v : option CallSession) (st : State) : State :=
  {| now := now st;
     timers := timers st;
     nextTimer := nextTimer st;
     phoneNumberVar := phoneNumberVar st;
     voiceIdVar := voiceIdVar st;
     session := v;
     silenceTimer := silenceTimer st;
     maxDurationTimer := maxDurationTimer st;
     activeSessions := activeSessions st;
     geminiClient := geminiClient st;
     twilioWs := twilioWs st;
     trace := trace st;
     endLog := endLog st |}.

Definition set_silenceTimer (v : option nat) (st : State) : State :=
  {| now := now st;
     timers := timers st;
     nextTimer := nextTimer st;
     phoneNumberVar := phoneNumberVar st;
     voiceIdVar := voiceIdVar st;
     session := session st;
     silenceTimer := v;
     maxDurationTimer := maxDurationTimer st;
     activeSessions := activeSessions st;
     geminiClient := geminiClient st;
     twilioWs := twilioWs st;
     trace := trace st;
     endLog := endLog st |}.

Definition set_maxDurationTimer (v : option nat) (st : State) : State :=
  {| now := now st;
     timers := timers st;
     nextTimer := nextTimer st;
     phoneNumberVar := phoneNumberVar st;
     voiceIdVar := voiceIdVar st;
     session := session st;
     silenceTimer := silenceTimer st;
     maxDurationTimer := v;
     activeSessions := activeSessions st;
     geminiClient := geminiClient st;
     twilioWs := twilioWs st;
     trace := trace st;
     endLog := endLog st |}.

Definition set_activeSessions (v : gset string) (st : State) : State :=
  {| now := now st;
     timers := timers st;
     nextTimer := nextTimer st;
     phoneNumberVar := phoneNumberVar st;
     voiceIdVar := voiceIdVar st;
     session := session st;
     silenceTimer := silenceTimer st;
     maxDurationTimer := maxDurationTimer st;
     activeSessions := v;
     geminiClient := geminiClient st;
     twilioWs := twilioWs st;
     trace := trace st;
     endLog := endLog st |}.

Definition set_geminiClient (v : GeminiClient) (st : State) : State :=
  {| now := now st;
     timers := timers st;
     nextTimer := nextTimer st;
     phoneNumberVar := phoneNumberVar st;
     voiceIdVar := voiceIdVar st;
     session := session st;
     silenceTimer := silenceTimer st;
     maxDurationTimer := maxDurationTimer st;
     activeSessions := activeSessions st;
     geminiClient := v;
     twilioWs := twilioWs st;
     trace := trace st;
     endLog := endLog st |}.

Definition set_twilioWs (v : ReadyState) (st : State) : State :=
  {| now := now st;
     timers := timers st;
     nextTimer := nextTimer st;
     phoneNumberVar := phoneNumberVar st;
     voiceIdVar := voiceIdVar st;
     session := session st;
     silenceTimer := silenceTimer st;
     maxDurationTimer := maxDurationTimer st;
     activeSessions := activeSessions st;
     geminiClient := geminiClient st;
     twilioWs := v;
     trace := trace st;
     endLog := endLog st |}.

Definition set_trace (v : list Op) (st : State) : State :=
  {| now := now st;
     timers := timers st;
     nextTimer := nextTimer st;
     phoneNumberVar := phoneNumberVar st;
     voiceIdVar := voiceIdVar st;
     session := session st;
     silenceTimer := silenceTimer st;
     maxDurationTimer := maxDurationTimer st;
     activeSessions := activeSessions st;
     geminiClient := geminiClient st;
     twilioWs := twilioWs st;
     trace := v;
     endLog := endLog st |}.

Definition set_endLog (v : list string) (st : State) : State :=
  {| now := now st;
     timers := timers st;
     nextTimer := nextTimer st;
     phoneNumberVar := phoneNumberVar st;
     voiceIdVar := voiceIdVar st;
     session := session st;
     silenceTimer := silenceTimer st;
     maxDurationTimer := maxDurationTimer st;
     activeSessions := activeSessions st;
     geminiClient := geminiClient st;
     twilioWs := twilioWs st;
     trace := trace st;
     endLog := v |}.

Definition with_conversationLog (v : list LogEntry) (s : CallSession) : CallSession :=
  {| callSid := callSid s;
     streamSid := streamSid s;
     phoneNumber := phoneNumber s;
     voiceId := voiceId s;
     conversationLog := v;
     startTime := startTime s;
     lastActivityTime := lastActivityTime s;
     isActive := isActive s;
     aiTurnCount := aiTurnCount s |}.

Definition with_lastActivityTime (v : Z) (s : CallSession) : CallSession :=
  {| callSid := callSid s;
     streamSid := streamSid s;
     phoneNumber := phoneNumber s;
     voiceId := voiceId s;
     conversationLog := conversationLog s;
     startTime := startTime s;
     lastActivityTime := v;
     isActive := isActive s;
     aiTurnCount := aiTurnCount s |}.

Definition with_isActive (v : bool) (s : CallSession) : CallSession :=
  {| callSid := callSid s;
     streamSid := streamSid s;
     phoneNumber := phoneNumber s;
     voiceId := voiceId s;
     conversationLog := conversationLog s;
     startTime := startTime s;
     lastActivityTime := lastActivityTime s;
     isActive := v;
     aiTurnCount := aiTurnCount s |}.

Definition with_aiTurnCount (v : Z) (s : CallSession) : CallSession :=
  {| callSid := callSid s;
     streamSid := streamSid s;
     phoneNumber := phoneNumber s;
     voiceId := voiceId s;
     conversationLog := conversationLog s;
     startTime := startTime s;
     lastActivityTime := lastActivityTime s;
     isActive := isActive s;
     aiTurnCount := v |}.

(** *** The runtime's timers *)

Definition push (o : Op) (st : State) : State :=
  set_trace (trace st ++ [o]) st.

(** [setTimeout(() => endCall(reason), delay)]; returns the handle. *)
Definition setTimeout (why : string) (delay : Z) (st : State) : nat * State :=
  let t := {| timer_id := nextTimer st; due := now st + delay; reason := why |} in
  (nextTimer st,
   set_nextTimer (S (nextTimer st)) (set_timers (timers st ++ [t]) st)).

Definition clearTimeout (handle : nat) (st : State) : State :=
  set_timers (filter (λ t, timer_id t ≠ handle) (timers st)) st.

(** [if (timer) clearTimeout(timer)] *)
Definition clearIfSet (timer : option nat) (st : State) : State :=
  match timer with
  | Some handle => clearTimeout handle st
  | None => st
  end.

(** *** GeminiClient *)

Definition isConnected (g : GeminiClient) : bool :=
  match g_ws g with
  | Some rs => bool_decide (rs = OPEN) && isSetupComplete g
  | None => false
  end.

(** The guard shared by [sendAudio], [sendMessage], [sendToolResponse]
    and [receive]: [!this.ws || !this.isSetupComplete]. *)
Definition notConnected (g : GeminiClient) : bool :=
  negb (bool_decide (is_Some (g_ws g))) || negb (isSetupComplete g).

(** A computation over the handler state that may throw; the state
    reached when it throws is kept. *)
Definition M (A : Type) : Type := State → result A * State.

Definition ret {A} (a : A) : M A := λ st, (Ok a, st).

Definition bind {A B} (m : M A) (k : A → M B) : M B :=
  λ st, match m st with
        | (Ok a, st') => k a st'
        | (Throw e, st') => (Throw e, st')
        end.

Definition act (f : State → State) : M unit := λ st, (Ok tt, f st).

Definition throw {A} (e : string) : M A := λ st, (Throw e, st).

Definition lift {A} (r : result A) : M A := λ st, (r, st).

Notation "x <- m ;; k" := (bind m (λ x, k))
  (at level 100, m at next level, k at level 200, only parsing).
Notation "m >> k" := (bind m (λ _, k))
  (at level 100, k at level 200, only parsing).

Fixpoint forM {A} (l : list A) (f : A → M unit) : M unit :=
  match l with
  | [] => ret tt
  | a :: l' => f a >> forM l' f
  end.

Definition guarded_send (o : Op) : M unit :=
  λ st, if notConnected (geminiClient st)
        then (Throw "Gemini client not connected", st)
        else (Ok tt, push o st).

Definition sendAudio (pcm : list Z) : M unit :=
  guarded_send (GeminiSendAudio pcm).

Definition sendMessage (msg : string) : M unit :=
  guarded_send (GeminiSendMessage msg).

Definition sendToolResponse (toolId functionName : string)
    (ok : option bool) (msg : option string) : M unit :=
  guarded_send (GeminiSendToolResponse toolId functionName ok msg).

(** [geminiClient.isConnected()], as a call the handler makes. *)
Definition queryConnected : M bool :=
  λ st, let c := isConnected (geminiClient st) in
        (Ok c, push (GeminiIsConnected c) st).

(** [GeminiClient.close] *)
Definition gemini_close (st : State) : State :=
  match g_ws (geminiClient st) with
  | Some _ =>
      set_geminiClient {| g_ws := None; isSetupComplete := false |}
        (push GeminiSocketClose st)
  | None => st
  end.

(** [GeminiClient.connect]: a socket is opened; the promise resolves
    when the endpoint acknowledges the setup ([handshake = true]) and is
    rejected otherwise. *)
Definition gemini_connect (handshake : bool) (voiceName : string) : M unit :=
  λ st,
    let st := push (GeminiOpen voiceName) st in
    if handshake then
      (Ok tt, set_geminiClient {| g_ws := Some OPEN; isSetupComplete := true |} st)
    else
      (Throw "Gemini setup failed",
       set_geminiClient {| g_ws := Some CLOSED; isSetupComplete := false |} st).

(** [ws.close(code, reason)] on the telephony socket. *)
Definition ws_close (code : Z) (why : string) (st : State) : State :=
  let st := push (WsClose code why) st in
  if bool_decide (twilioWs st = OPEN) then set_twilioWs CLOSING st else st.

(** *** endCall *)

Definition endCall (why : string) (st : State) : State :=
  match session st with
  | None => st
  | Some s =>
      let st := set_endLog (endLog st ++ [why]) st in
      let st := set_session (Some (with_isActive false s)) st in
      let st := clearIfSet (silenceTimer st) st in
      let st := clearIfSet (maxDurationTimer st) st in
      let st := gemini_close st in
      let st :=
        if bool_decide (twilioWs st = OPEN)
        then ws_close 1000 "Call ended" st else st in
      set_activeSessions (activeSessions st ∖ {[ callSid s ]}) st
  end.

Definition cleanup (st : State) : State :=
  let st :=
    match session st with
    | Some s => if isActive s then endCall "disconnected" st else st
    | None => st
    end in
  let st := clearIfSet (silenceTimer st) st in
  clearIfSet (maxDurationTimer st) st.

(** *** handleStart *)

(** [a || b] on strings: the empty string and [undefined] are falsy. *)
Definition or_else (a : option string) (b : string) : string :=
  match a with
  | Some s => if decide (s = "") then b else s
  | None => b
  end.

Definition handleStart (handshake : bool) (message : TwilioStreamMessage)
    (st : State) : State :=
  match start message with
  | None => st
  | Some info =>
      let st :=
        match customParameters info with
        | Some cp =>
            let st := set_phoneNumberVar
                        (or_else (cp !! "phoneNumber") (phoneNumberVar st)) st in
            set_voiceIdVar (or_else (cp !! "voiceId") (voiceIdVar st)) st
        | None => st
        end in
      let body : M unit :=
        gemini_connect handshake (voiceIdVar st) >>
        act (λ st,
          let s := {| callSid := start_callSid info;
                      streamSid := start_streamSid info;
                      phoneNumber := phoneNumberVar st;
                      voiceId := voiceIdVar st;
                      conversationLog := [];
                      startTime := now st;
                      lastActivityTime := now st;
                      isActive := true;
                      aiTurnCount := 0 |} in
          let st := set_session (Some s) st in
          let st := set_activeSessions ({[ start_callSid info ]} ∪ activeSessions st) st in
          let '(handle, st) := setTimeout "max_duration" MAX_CALL_DURATION st in
          set_maxDurationTimer (Some handle) st) >>
        sendMessage openingMessage in
      match body st with
      | (Ok _, st) => st
      | (Throw _, st) => ws_close 1011 "Internal error" st
      end
  end.

(** *** handleMedia *)

(** The [try] block of [handleMedia], entered with the session [s] and
    the media record [m] the guard has found. *)
Definition handleMedia_try (s : CallSession) (m : MediaInfo) : M unit :=
  act (λ st, set_session (Some (with_lastActivityTime (now st) s)) st) >>
  act (λ st, clearIfSet (silenceTimer st) st) >>
  act (λ st,
    let '(handle, st) := setTimeout "silence_timeout" SILENCE_TIMEOUT st in
    set_silenceTimer (Some handle) st) >>
  let pcm8k := ulaw2pcm (payload m) in
  act (λ st,
    if rms_exceeds pcm8k BARGE_IN_THRESHOLD
    then push (WsSend (ClearEvent (streamSid s))) st else st) >>
  connected <- queryConnected ;;
  if negb connected then ret tt
  else
    pcm24k <- lift (resample pcm8k 8000 24000) ;;
    sendAudio pcm24k.

(** An exception in the block is caught and logged. *)
Definition handleMedia (message : TwilioStreamMessage) (st : State) : State :=
  match media message, session st with
  | Some m, Some s =>
      if decide (track m = inbound) then snd (handleMedia_try s m st) else st
  | _, _ => st
  end.

Definition handleStop (message : TwilioStreamMessage) (st : State) : State :=
  endCall "completed" st.

(** *** receiveFromGemini *)

Definition lower_ascii (c : ascii) : ascii :=
  let n := N_of_ascii c in
  if ((65 <=? n) && (n <=? 90))%N then ascii_of_N (n + 32) else c.

(** [toLowerCase] on the ASCII letters; this decides the search for the
    phrases below, which are ASCII. *)
Fixpoint toLowerCase (s : string) : string :=
  match s with
  | EmptyString => EmptyString
  | String c r => String (lower_ascii c) (toLowerCase r)
  end.

Definition includes (s phrase : string) : bool :=
  bool_decide (is_Some (String.index 0 phrase s)).

Definition endCallPhrases : list string :=
  ["goodbye"; "bye"; "take care"; "have a great day"].

(** The current session; the loop runs only while there is one. *)
Definition the_session : M CallSession :=
  λ st, match session st with
        | Some s => (Ok s, st)
        | None => (Throw "TypeError", st)
        end.

Definition on_turnComplete : M unit :=
  s <- the_session ;;
  let s := with_aiTurnCount (aiTurnCount s + 1) s in
  act (set_session (Some s)) >>
  if 5 <=? aiTurnCount s
  then act (λ st, snd (setTimeout "completed" 2000 st))
  else ret tt.

Definition on_functionCall (call : FunctionCall) : M unit :=
  res <- lift (executeTool (fc_name call) (fc_args call)) ;;
  let shouldEndCall := bool_decide (action res = Some "end_call") in
  sendToolResponse (fc_id call) (fc_name call) (success res) (message res) >>
  if shouldEndCall
  then act (λ st, snd (setTimeout "ai_requested" 3000 st))
  else ret tt.

Definition on_part (part : Part) : M unit :=
  (match inlineData part with
   | Some d =>
       if String.prefix "audio/pcm" (mimeType d) then
         pcm8k <- lift (resample (data d) 24000 8000) ;;
         let ulawBuffer := pcm2ulaw pcm8k in
         s <- the_session ;;
         act (push (WsSend (MediaEvent (streamSid s) ulawBuffer)))
       else ret tt
   | None => ret tt
   end) >>
  match text part with
  | Some t =>
      if decide (t = "") then ret tt
      else
        s <- the_session ;;
        (λ st,
          let entry := {| role := "model"; entry_text := t; timestamp := now st |} in
          (Ok tt,
           set_session
             (Some (with_conversationLog (conversationLog s ++ [entry]) s)) st)) >>
        let lowerText := toLowerCase t in
        if existsb (includes lowerText) endCallPhrases
        then act (λ st, snd (setTimeout "completed" 2000 st))
        else ret tt
  | None => ret tt
  end.

(** The body of the [while] loop for one response. *)
Definition on_response (response : GeminiResponse) : M unit :=
  (if turnComplete response then on_turnComplete else ret tt) >>
  forM (functionCalls response) on_functionCall >>
  forM (parts response) on_part.

(** The loop is alive while the session is active, and [receive] hands
    it a response only while the client is connected; an exception
    leaves the loop through [endCall('error')]. *)
Definition receiveFromGemini (response : GeminiResponse) (st : State) : State :=
  match session st with
  | Some s =>
      if isActive s && negb (notConnected (geminiClient st)) then
        match on_response response st with
        | (Ok _, st) => st
        | (Throw _, st) => endCall "error" st
        end
      else st
  | None => st
  end.

(** *** The event loop *)

(** Among the timers due by [target], the one the runtime runs first:
    the earliest, and of equally early ones the first created. *)
Definition earlier (a b : Timer) : Timer :=
  if due b <? due a then b else a.

Definition next_due (target : Z) (ts : list Timer) : option Timer :=
  match filter (λ t, due t ≤ target) ts with
  | [] => None
  | t :: rest => Some (foldl earlier t rest)
  end.

Definition run_timer (t : Timer) (st : State) : State :=
  let st := clearTimeout (timer_id t) st in
  let st := set_now (Z.max (now st) (due t)) st in
  endCall (reason t) st.

Fixpoint fire (fuel : nat) (target : Z) (st : State) : State :=
  match fuel with
  | O => st
  | S fuel' =>
      match next_due target (timers st) with
      | None => st
      | Some t => fire fuel' target (run_timer t st)
      end
  end.

(** [ms] milliseconds pass: every timer that falls due runs, in order.
    A timer callback never creates a timer, so one round per pending
    timer is enough. *)
Definition elapse (ms : Z) (st : State) : State :=
  let target := now st + ms in
  let st := fire (length (timers st)) target st in
  set_now (Z.max (now st) target) st.

Inductive Event : Type :=
| Message (m : TwilioStreamMessage) (handshake : bool)
| SocketClose
| SocketError
| Response (r : GeminiResponse)
| Elapse (ms : Z).

Definition step (st : State) (e : Event) : State :=
  match e with
  | Message m handshake =>
      match event m with
      | ev_start => handleStart handshake m st
      | ev_media => handleMedia m st
      | ev_stop => handleStop m st
      end
  | SocketClose => cleanup (set_twilioWs CLOSED st)
  | SocketError => cleanup st
  | Response r => receiveFromGemini r st
  | Elapse ms => elapse ms st
  end.

Definition run (es : list Event) (st : State) : State := foldl step st es.

(** A fresh connection: no session yet, the telephony socket open. *)
Definition initial (reg : gset string) (g : GeminiClient) : State :=
  {| now := 0; timers := []; nextTimer := 0;
     phoneNumberVar := "unknown"; voiceIdVar := "Puck";
     session := None; silenceTimer := None; maxDurationTimer := None;
     activeSessions := reg; geminiClient := g; twilioWs := OPEN;
     trace := []; endLog := [] |}.

End CallHandler.

(** ** GeminiClient: the queue of pending [receive] calls *)

Module LiveClient.

Import CallHandler.

(** The client with its [pendingResponses].  A promise returned by
    [receive] is named by a number; [settled] lists, in order, the
    promises that have been resolved and with what ([None] is [null]).
    Resolving a promise a second time does nothing. *)
Record Client : Type := mkLiveClient {
  ws : option ReadyState;
  setupComplete : bool;
  pendingResponses : list nat;
  nextPromise : nat;
  settled : list (nat * option GeminiResponse);
}.

Definition is_settled (p : nat) (c : Client) : bool :=
  bool_decide (p ∈ (settled c).*1).

(** [resolve(value)] on promise [p]. *)
Definition resolve (p : nat) (value : option GeminiResponse) (c : Client)
    : Client :=
  if is_settled p c then c
  else {| ws := ws c; setupComplete := setupComplete c;
          pendingResponses := pendingResponses c;
          nextPromise := nextPromise c;
          settled := settled c ++ [(p, value)] |}.

Definition set_pending (l : list nat) (c : Client) : Client :=
  {| ws := ws c; setupComplete := setupComplete c;
     pendingResponses := l;
     nextPromise := nextPromise c;
     settled := settled c |}.

(** [receive()]: the promise it returns, and the client afterwards. *)
Definition receive (c : Client) : nat * Client :=
  let p := nextPromise c in
  let c := {| ws := ws c; setupComplete := setupComplete c;
              pendingResponses := pendingResponses c;
              nextPromise := S p;
              settled := settled c |} in
  if negb (bool_decide (is_Some (ws c))) || negb (setupComplete c)
  then (p, resolve p None c)
  else (p, set_pending (pendingResponses c ++ [p]) c).

(** The ['message'] listener installed by [connect]. *)
Definition onMessage (response : GeminiResponse) (c : Client) : Client :=
  if negb (setupComplete c) then c
  else
    match pendingResponses c with
    | [] => c
    | p :: rest => resolve p (Some response) (set_pending rest c)
    end.

(** The ['close'] event of the socket: the listener installed by
    [connect] clears the setup flag, and the [closeHandler] of every
    waiting [receive] resolves its promise with [null].  Its
    [indexOf(resolve)] finds nothing, because the queue holds the
    wrapper and not [resolve], so the queue keeps its entries. *)
Definition onSocketClose (c : Client) : Client :=
  let c := {| ws := (λ _, CLOSED) <$> ws c; setupComplete := false;
              pendingResponses := pendingResponses c;
              nextPromise := nextPromise c;
              settled := settled c |} in
  foldl (λ c p, resolve p None c) c (pendingResponses c).

(** [close()] *)
Definition close (c : Client) : Client :=
  match ws c with
  | Some _ =>
      let c := foldl (λ c p, resolve p None c) c (pendingResponses c) in
      {| ws := None; setupComplete := false;
         pendingResponses := [];
         nextPromise := nextPromise c;
         settled := settled c |}
  | None => c
  end.

(** The guard of [sendAudio], [sendMessage] and [sendToolResponse]. *)
Definition can_send (c : Client) : bool :=
  bool_decide (is_Some (ws c)) && setupComplete c.

End LiveClient.

(** ** Tool declarations *)

Module ToolDeclarations.

(** One entry of [parameters.properties]. *)
Record Property : Type := mkProperty {
  prop_type : string;
  prop_description : string;
}.

(** [GeminiTool]; [parameters.type] is always ['object']. *)
Record GeminiTool : Type := mkTool {
  name : string;
  description : string;
  properties : gmap string Property;
  required : list string;
}.

(** [ToolRegistry.getToolsForGemini] *)
Definition getToolsForGemini : list GeminiTool :=
  [ {| name := "end_call";
       description := "End the call gracefully when conversation is complete";
       properties :=
         {[ "reason" :=
              {| prop_type := "string";
                 prop_description :=
                   "Reason for ending call (completed, user_request)" |} ]};
       required := ["reason"] |} ].

End ToolDeclarations.

(** * Properties *)

Import AudioCodec ToolRegistry CallHandler.

(** ** Vocabulary of the statements *)

(** What the first [k] iterations of the 8 kHz to 24 kHz loop have
    written. *)
Definition upsampled (samples output : list Z) (k : nat) : Prop :=
  length output = (length samples * 3)%nat ∧
  ∀ j s1 s2, (j < k)%nat →
    samples !! j = Some s1 → samples !! S j = Some s2 →
    output !! (3 * j)%nat = Some s1 ∧
    output !! (3 * j + 1)%nat = Some ((2 * s1 + s2) `div` 3) ∧
    output !! (3 * j + 2)%nat = Some ((s1 + 2 * s2) `div` 3).

(** What the first [k] iterations of the 24 kHz to 8 kHz loop have
    written. *)
Definition downsampled (samples output : list Z) (k : nat) : Prop :=
  length output = (length samples `div` 3)%nat ∧
  ∀ j a b c, (j < k)%nat →
    samples !! (3 * j)%nat = Some a →
    samples !! (3 * j + 1)%nat = Some b →
    samples !! (3 * j + 2)%nat = Some c →
    output !! j = Some ((a + b + c) `div` 3).

(** The byte [pcm2ulaw] stores for sign bit [s], segment [e] and
    mantissa [m]. *)
Definition code (s e m : Z) : Z :=
  Z.land (Z.lnot (Z.lor (Z.lor s (Z.shiftl e 4)) m)) 0xff.

(** The magnitude the table holds for segment [e], mantissa [m]. *)
Definition level (e m : Z) : Z := (m * 8 + 132) * 2 ^ e - 132.

(** *** Observations on the handler

    The [clear] events in a trace. *)
Definition is_clear (o : Op) : bool :=
  match o with
  | WsSend (ClearEvent _) => true
  | _ => false
  end.

Definition clears (ops : list Op) : nat := length (filter is_clear ops).

(** Barge-in read as a property of every loud inbound frame, whatever
    the state of the handler. *)
Definition barge_in_on_every_frame : Prop :=
  ∀ (st : State) (msg : TwilioStreamMessage) (m : MediaInfo),
    media msg = Some m → track m = inbound →
    rms_exceeds (ulaw2pcm (payload m)) BARGE_IN_THRESHOLD = true →
    clears (trace (handleMedia msg st)) = S (clears (trace st)).

(** The calls [endCall] makes on the two sockets from state [st]. *)
Definition closes (st : State) : list Op :=
  match g_ws (geminiClient st) with
  | Some _ => [GeminiSocketClose]
  | None => []
  end ++
  (if bool_decide (twilioWs st = OPEN) then [WsClose 1000 "Call ended"] else []).

(** The call has been ended: the session is inactive and unregistered,
    and [endCall] has nothing left to close. *)
Definition ended (st : State) : Prop :=
  ∃ s, session st = Some s ∧ isActive s = false ∧
       (callSid s ∉ activeSessions st) ∧ closes st = [].

(** *** Sample inputs

    A frame of two bytes 0x00, which decode to -32124; a frame of two
    bytes 0xff, which decode to 0. *)
Definition loud_frame : TwilioStreamMessage :=
  {| event := ev_media; start := None;
     media := Some {| track := inbound; payload := [0; 0] |} |}.

Definition quiet_frame : TwilioStreamMessage :=
  {| event := ev_media; start := None;
     media := Some {| track := inbound; payload := [255; 255] |} |}.

Definition start_CA1 : TwilioStreamMessage :=
  {| event := ev_start;
     start := Some {| start_streamSid := "MZ1"; start_callSid := "CA1";
                      customParameters := None |};
     media := None |}.

Definition idle_client : GeminiClient :=
  {| g_ws := None; isSetupComplete := false |}.

(** The handler after a [start] event whose handshake succeeds. *)
Definition started : State := handleStart true start_CA1 (initial ∅ idle_client).

Definition session_CA1 : CallSession :=
  {| callSid := "CA1"; streamSid := "MZ1"; phoneNumber := "unknown";
     voiceId := "Puck"; conversationLog := []; startTime := 0;
     lastActivityTime := 0; isActive := true; aiTurnCount := 0 |}.

(** What [endCall] leaves of the client and of the telephony socket. *)
Definition closed_client (g : GeminiClient) : GeminiClient :=
  match g_ws g with
  | Some _ => {| g_ws := None; isSetupComplete := false |}
  | None => g
  end.

Definition closing (rs : ReadyState) : ReadyState :=
  if bool_decide (rs = OPEN) then CLOSING else rs.

(** [if (timer) clearTimeout(timer)] on the timer queue. *)
Definition without (h : option nat) (ts : list Timer) : list Timer :=
  match h with
  | Some handle => filter (λ t, timer_id t ≠ handle) ts
  | None => ts
  end.

(** A response that carries nothing but the turn-completion signal. *)
Definition turn_complete : GeminiResponse :=
  {| turnComplete := true; functionCalls := []; parts := [] |}.


Definition stop_msg : TwilioStreamMessage :=
  {| event := ev_stop; start := None; media := None |}.

Definition max_timer : Timer :=
  {| timer_id := 0; due := 300000; reason := "max_duration" |}.



(** *** Further vocabulary *)

(** A byte of a [Buffer]. *)
Definition is_byte (b : Z) : Prop := 0 ≤ b ≤ 255.

(** Byte [b] survives decoding and encoding; 127 is set apart. *)
Definition reencodes (b : Z) : bool :=
  (b =? 127) || (encode_sample (decode_byte b) =? b).

(** Byte [b] decodes within the largest level of the table. *)
Definition decoded_bound (b : Z) : bool :=
  Z.abs (decode_byte b) <=? 32124.

(** The decoding level of a biased magnitude. *)
Definition level_of (m : Z) : Z :=
  level (Z.log2 m - 7) (Z.land (Z.shiftr m (Z.log2 m - 7 + 3)) 0x0f).

(** Every sample lies in [[lo, hi]]. *)
Definition within (lo hi : Z) (samples : list Z) : Prop :=
  Forall (λ s, lo ≤ s ≤ hi) samples.

(** The promises in the queue are distinct and unresolved, and promise
    numbers not yet handed out are unresolved too. *)
Definition queue_ok (c : LiveClient.Client) : Prop :=
  NoDup (LiveClient.pendingResponses c) ∧
  (∀ p, p ∈ LiveClient.pendingResponses c → p ∉ (LiveClient.settled c).*1) ∧
  (∀ p, p ∈ (LiveClient.settled c).*1 → (p < LiveClient.nextPromise c)%nat) ∧
  (∀ p, p ∈ LiveClient.pendingResponses c → (p < LiveClient.nextPromise c)%nat).

(** A client right after a successful [connect]. *)
Definition connected_client : LiveClient.Client :=
  {| LiveClient.ws := Some OPEN; LiveClient.setupComplete := true;
     LiveClient.pendingResponses := []; LiveClient.nextPromise := 0;
     LiveClient.settled := [] |}.

(** A response that carries one audio part. *)
Definition audio_response (samples : list Z) : GeminiResponse :=
  {| turnComplete := false; functionCalls := [];
     parts := [ {| text := None;
                   inlineData := Some {| data := samples;
                                         mimeType := "audio/pcm;rate=24000" |} |} ] |}.

(** The timer [handleMedia] arms from state [st]. *)
Definition silence_timer (st : State) : Timer :=
  {| timer_id := nextTimer st; due := now st + SILENCE_TIMEOUT;
     reason := "silence_timeout" |}.

(** Every pending silence timer is the one the handler keeps the handle
    of. *)
Definition silence_tracked (st : State) : Prop :=
  ∀ t, t ∈ timers st → reason t = "silence_timeout" →
       silenceTimer st = Some (timer_id t).

(** A response that carries one function call and nothing else. *)
Definition tool_call (call : FunctionCall) : GeminiResponse :=
  {| turnComplete := false; functionCalls := [call]; parts := [] |}.

(** A response that carries one inline-data part and nothing else. *)
Definition inline_part (d : InlineData) : GeminiResponse :=
  {| turnComplete := false; functionCalls := [];
     parts := [ {| text := None; inlineData := Some d |} ] |}.

(** The timer a tool-requested end of call arms from state [st]. *)
Definition ai_timer (st : State) : Timer :=
  {| timer_id := nextTimer st; due := now st + 3000; reason := "ai_requested" |}.

(** What a handler whose call has ended may still put on the trace. *)
Definition harmless (o : Op) : Prop :=
  match o with
  | WsSend (ClearEvent _) => True
  | GeminiIsConnected false => True
  | _ => False
  end.

(** Any event but a telephony [start] message. *)
Definition not_start (e : Event) : Prop :=
  match e with
  | Message m _ => event m ≠ ev_start
  | _ => True
  end.




(** The timer [handleStart] arms from state [st]. *)
Definition max_duration_timer (st : State) : Timer :=
  {| timer_id := nextTimer st; due := now st + MAX_CALL_DURATION;
     reason := "max_duration" |}.

(** [ws.close(1000, ...)] on the telephony socket. *)
Definition is_normal_close (o : Op) : bool :=
  match o with
  | WsClose code _ => code =? 1000
  | _ => false
  end.

(** How many of them a trace holds. *)
Definition normal_closes (ops : list Op) : nat :=
  length (filter is_normal_close ops).

(** A step that leaves the telephony socket as it is and makes no normal
    close. *)
Definition quiet (st st' : State) : Prop :=
  twilioWs st' = twilioWs st ∧
  ∃ ops, trace st' = trace st ++ ops ∧ normal_closes ops = 0%nat.

(** A step that never reopens the telephony socket, and makes a normal
    close at most once and only on an open socket. *)
Definition tame (st st' : State) : Prop :=
  (twilioWs st' = OPEN → twilioWs st = OPEN) ∧
  ∃ ops, trace st' = trace st ++ ops ∧
    (normal_closes ops ≤ if bool_decide (twilioWs st = OPEN) then 1 else 0)%nat ∧
    (twilioWs st' = OPEN → normal_closes ops = 0%nat).

(** The telephony socket has had at most one normal close, and none
    while it is still open. *)
Definition closed_once (st : State) : Prop :=
  (normal_closes (trace st) ≤ 1)%nat ∧
  (twilioWs st = OPEN → normal_closes (trace st) = 0%nat).

(** A computation all of whose runs are quiet, thrown or not. *)
Definition quietM {A} (m : M A) : Prop := ∀ st, quiet st (m st).2.

(** A client with two [receive] calls waiting. *)
Definition two_waiting : LiveClient.Client :=
  (LiveClient.receive (LiveClient.receive connected_client).2).2.

(** Three samples of 24 kHz audio. *)
Definition audio_24k : InlineData :=
  {| data := [0; 3; -7]; mimeType := "audio/pcm;rate=24000" |}.

(** ** Proofs *)

Section TypedArrays.

Lemma to_int16_id (v : Z) : is_int16 v → to_int16 v = v.
Proof.
  unfold is_int16, INT16_MIN, INT16_MAX, to_int16. intros Hv.
  rewrite Z.mod_small by lia. lia.
Qed.

Lemma ta_get_nat (a : list Z) (i : nat) : ta_get a (Z.of_nat i) = a !! i.
Proof.
  unfold ta_get. destruct (Z.ltb_spec (Z.of_nat i) 0); [lia|].
  by rewrite Nat2Z.id.
Qed.

Lemma ta_get_neg (a : list Z) (i : Z) : i < 0 → ta_get a i = None.
Proof. unfold ta_get. intros. destruct (Z.ltb_spec i 0); [done|lia]. Qed.

Lemma ta_set_nat (a : list Z) (i : nat) (v : option Z) :
  ta_set a (Z.of_nat i) v = <[i := to_int16 (default 0 v)]> a.
Proof.
  unfold ta_set. destruct (Z.ltb_spec (Z.of_nat i) 0); [lia|].
  by rewrite Nat2Z.id.
Qed.

Lemma ta_set_neg (a : list Z) (i : Z) (v : option Z) : i < 0 → ta_set a i v = a.
Proof. unfold ta_set. intros. destruct (Z.ltb_spec i 0); [done|lia]. Qed.

Lemma ta_set_length (a : list Z) (i : Z) (v : option Z) :
  length (ta_set a i v) = length a.
Proof. unfold ta_set. destruct (i <? 0); [done|]. apply length_insert. Qed.

(** A loop [for (i = 0; i < n; i++)] establishes an invariant. *)
Lemma for_loop_ind {B : Type} (P : nat → B → Prop) (f : B → Z → B) (b0 : B) (n : nat) :
  P 0%nat b0 →
  (∀ k b, (k < n)%nat → P k b → P (S k) (f b (Z.of_nat k))) →
  P n (foldl f b0 (seqZ 0 (Z.of_nat n))).
Proof.
  intros H0 Hstep.
  assert (Hgen : ∀ m, (m ≤ n)%nat → P m (foldl f b0 (seqZ 0 (Z.of_nat m)))).
  { induction m as [|m IH]; intros Hm; [done|].
    replace (Z.of_nat (S m)) with (Z.of_nat m + 1) by lia.
    rewrite seqZ_app by lia. rewrite foldl_app.
    replace (seqZ (0 + Z.of_nat m) 1) with [Z.of_nat m] by (by rewrite Z.add_0_l).
    simpl. apply Hstep; [lia|]. apply IH. lia. }
  by apply Hgen.
Qed.

End TypedArrays.

Section Upsample.

Lemma interp_int16 (a b : Z) :
  is_int16 a → is_int16 b →
  is_int16 ((2 * a + b) `div` 3) ∧ is_int16 ((a + 2 * b) `div` 3).
Proof.
  unfold is_int16, INT16_MIN, INT16_MAX. intros Ha Hb.
  split; split.
  - apply Z.div_le_lower_bound; lia.
  - apply Z.div_le_upper_bound; lia.
  - apply Z.div_le_lower_bound; lia.
  - apply Z.div_le_upper_bound; lia.
Qed.

Lemma pcm_frame_lookup (samples : list Z) (i : nat) (x : Z) :
  pcm_frame samples → samples !! i = Some x → is_int16 x.
Proof. intros Hf Hx. by eapply (Forall_lookup_1 _ _ _ _ Hf Hx). Qed.

Lemma upsample_step_spec (samples output : list Z) (k : nat) :
  pcm_frame samples → (S k < length samples)%nat →
  upsampled samples output k →
  upsampled samples (upsample_step samples output (Z.of_nat k)) (S k).
Proof.
  intros Hf Hk [Hlen Hinv].
  destruct (lookup_lt_is_Some_2 samples k) as [a Ha]; [lia|].
  destruct (lookup_lt_is_Some_2 samples (S k)) as [b Hb]; [lia|].
  pose proof (pcm_frame_lookup _ _ _ Hf Ha) as Hia.
  pose proof (pcm_frame_lookup _ _ _ Hf Hb) as Hib.
  destruct (interp_int16 a b Hia Hib) as [H1 H2].
  unfold upsample_step.
  replace (Z.of_nat k + 1) with (Z.of_nat (S k)) by lia.
  replace (Z.of_nat k * 3) with (Z.of_nat (3 * k)) by lia.
  replace (Z.of_nat (3 * k) + 1) with (Z.of_nat (3 * k + 1)) by lia.
  replace (Z.of_nat (3 * k) + 2) with (Z.of_nat (3 * k + 2)) by lia.
  rewrite !ta_get_nat, !ta_set_nat, Ha, Hb. simpl.
  rewrite !to_int16_id by done.
  split; [by rewrite !length_insert|].
  intros j s1 s2 Hj Hs1 Hs2.
  destruct (decide (j = k)) as [->|Hne].
  - rewrite Ha in Hs1. rewrite Hb in Hs2. simplify_eq.
    repeat split.
    + rewrite !list_lookup_insert_ne by lia.
      apply list_lookup_insert_eq. lia.
    + rewrite list_lookup_insert_ne by lia.
      apply list_lookup_insert_eq. rewrite length_insert. lia.
    + apply list_lookup_insert_eq. rewrite !length_insert. lia.
  - rewrite !list_lookup_insert_ne by lia.
    apply Hinv; [lia|done..].
Qed.

Lemma upsample_loop_spec (samples : list Z) :
  pcm_frame samples → samples ≠ [] →
  upsampled samples
    (foldl (upsample_step samples) (replicate (length samples * 3) 0)
           (seqZ 0 (Z.of_nat (length samples) - 1)))
    (length samples - 1).
Proof.
  intros Hf Hne.
  assert (0 < length samples)%nat by (destruct samples; [done|simpl; lia]).
  replace (Z.of_nat (length samples) - 1) with (Z.of_nat (length samples - 1)) by lia.
  apply (for_loop_ind (λ k out, upsampled samples out k)).
  - split; [by rewrite length_replicate|]. intros; lia.
  - intros k b Hk Hb. apply upsample_step_spec; [done|lia|done].
Qed.

Lemma upsample3_spec (samples : list Z) :
  pcm_frame samples → samples ≠ [] →
  length (upsample3 samples) = (3 * length samples)%nat ∧
  (∀ i s1 s2, samples !! i = Some s1 → samples !! S i = Some s2 →
     upsample3 samples !! (3 * i)%nat = Some s1 ∧
     upsample3 samples !! (3 * i + 1)%nat = Some ((2 * s1 + s2) `div` 3) ∧
     upsample3 samples !! (3 * i + 2)%nat = Some ((s1 + 2 * s2) `div` 3)) ∧
  (∀ s, samples !! (length samples - 1)%nat = Some s →
     upsample3 samples !! (3 * (length samples - 1))%nat = Some s ∧
     upsample3 samples !! (3 * (length samples - 1) + 1)%nat = Some s ∧
     upsample3 samples !! (3 * (length samples - 1) + 2)%nat = Some s).
Proof.
  intros Hf Hne.
  destruct (upsample_loop_spec samples Hf Hne) as [Hlen Hinv].
  assert (0 < length samples)%nat by (destruct samples; [done|simpl; lia]).
  unfold upsample3.
  set (out := foldl _ _ _) in *.
  set (n := length samples) in *.
  replace (Z.of_nat n - 1) with (Z.of_nat (n - 1)) by lia.
  replace (Z.of_nat (n - 1) * 3) with (Z.of_nat (3 * (n - 1))) by lia.
  replace (Z.of_nat (3 * (n - 1)) + 1) with (Z.of_nat (3 * (n - 1) + 1)) by lia.
  replace (Z.of_nat (3 * (n - 1)) + 2) with (Z.of_nat (3 * (n - 1) + 2)) by lia.
  rewrite !ta_get_nat, !ta_set_nat.
  destruct (lookup_lt_is_Some_2 samples (n - 1)) as [z Hz]; [lia|].
  rewrite Hz. simpl.
  rewrite to_int16_id by (by eapply pcm_frame_lookup).
  split; [rewrite !length_insert; lia|].
  split.
  - intros i s1 s2 Hs1 Hs2.
    assert (S i < n)%nat by (by apply lookup_lt_Some in Hs2).
    rewrite !list_lookup_insert_ne by lia.
    apply Hinv; [lia|done..].
  - intros s Hs. simplify_eq. repeat split.
    + rewrite !list_lookup_insert_ne by lia.
      apply list_lookup_insert_eq. lia.
    + rewrite list_lookup_insert_ne by lia.
      apply list_lookup_insert_eq. rewrite length_insert. lia.
    + apply list_lookup_insert_eq. rewrite !length_insert. lia.
Qed.

End Upsample.

Lemma upsample3_constant (samples : list Z) (c : Z) :
  pcm_frame samples → samples ≠ [] →
  Forall (eq c) samples → Forall (eq c) (upsample3 samples).
Proof.
  intros Hf Hne Hc.
  destruct (upsample3_spec samples Hf Hne) as (Hlen & Hpair & Hlast).
  apply Forall_lookup_2. intros p y Hy.
  assert (Hp : (p < 3 * length samples)%nat)
    by (rewrite <- Hlen; by eapply lookup_lt_Some).
  assert (Hget : ∀ i x, samples !! i = Some x → x = c).
  { intros i x Hx. symmetry. by eapply (Forall_lookup_1 _ _ _ _ Hc Hx). }
  set (i := (p `div` 3)%nat).
  assert (Hpi : (p = 3 * i ∨ p = 3 * i + 1 ∨ p = 3 * i + 2)%nat).
  { pose proof (Nat.div_mod_eq p 3). pose proof (Nat.mod_upper_bound p 3).
    unfold i. lia. }
  clearbody i.
  assert (Hi : (i < length samples)%nat) by lia.
  destruct (lookup_lt_is_Some_2 samples i Hi) as [a Ha].
  pose proof (Hget _ _ Ha) as ->.
  destruct (decide (S i < length samples)%nat) as [Hlt|Hge].
  - destruct (lookup_lt_is_Some_2 samples (S i) Hlt) as [b Hb].
    pose proof (Hget _ _ Hb) as ->.
    destruct (Hpair i c c Ha Hb) as (H0 & H1 & H2).
    replace (2 * c + c) with (c * 3) in H1 by lia.
    replace (c + 2 * c) with (c * 3) in H2 by lia.
    rewrite Z.div_mul in H1, H2 by lia.
    destruct Hpi as [->|[->| ->]]; congruence.
  - assert (i = length samples - 1)%nat as Hi' by lia.
    rewrite Hi' in Ha. destruct (Hlast c Ha) as (H0 & H1 & H2).
    rewrite <- Hi' in H0, H1, H2.
    destruct Hpi as [->|[->| ->]]; congruence.
Qed.

Section Downsample.

Lemma mean3_int16 (a b c : Z) :
  is_int16 a → is_int16 b → is_int16 c → is_int16 ((a + b + c) `div` 3).
Proof.
  unfold is_int16, INT16_MIN, INT16_MAX. intros Ha Hb Hc. split.
  - apply Z.div_le_lower_bound; lia.
  - apply Z.div_le_upper_bound; lia.
Qed.

Lemma downsample_step_spec (samples output : list Z) (k : nat) :
  pcm_frame samples → (k < length samples `div` 3)%nat →
  downsampled samples output k →
  downsampled samples (downsample_step samples output (Z.of_nat k)) (S k).
Proof.
  intros Hf Hk [Hlen Hinv].
  pose proof (Nat.div_mod_eq (length samples) 3) as Hdm.
  destruct (lookup_lt_is_Some_2 samples (3 * k)) as [a Ha]; [lia|].
  destruct (lookup_lt_is_Some_2 samples (3 * k + 1)) as [b Hb]; [lia|].
  destruct (lookup_lt_is_Some_2 samples (3 * k + 2)) as [c Hc]; [lia|].
  unfold downsample_step.
  replace (Z.of_nat k * 3) with (Z.of_nat (3 * k)) by lia.
  replace (Z.of_nat (3 * k) + 1) with (Z.of_nat (3 * k + 1)) by lia.
  replace (Z.of_nat (3 * k) + 2) with (Z.of_nat (3 * k + 2)) by lia.
  rewrite !ta_get_nat, ta_set_nat, Ha, Hb, Hc. simpl.
  rewrite to_int16_id
    by (apply mean3_int16; by eapply pcm_frame_lookup).
  split; [by rewrite length_insert|].
  intros j a' b' c' Hj Ha' Hb' Hc'.
  destruct (decide (j = k)) as [->|Hne].
  - simplify_eq. apply list_lookup_insert_eq. lia.
  - rewrite list_lookup_insert_ne by lia. apply Hinv; [lia|done..].
Qed.

Lemma downsample3_spec (samples : list Z) :
  pcm_frame samples →
  downsampled samples (downsample3 samples) (length samples `div` 3).
Proof.
  intros Hf. unfold downsample3.
  replace (Z.of_nat (length samples) `div` 3)
    with (Z.of_nat (length samples `div` 3))
    by (by rewrite Nat2Z.inj_div).
  rewrite Nat2Z.id.
  apply (for_loop_ind (λ k out, downsampled samples out k)).
  - split; [by rewrite length_replicate|]. intros; lia.
  - intros k b Hk Hb. by apply downsample_step_spec.
Qed.

End Downsample.

(** Claim C6.  For a non-empty PCM frame, resampling from 8000 to
    24000 Hz returns three output samples per input sample: every
    consecutive input pair [(s1, s2)] at position [i] yields [s1],
    [floor((2*s1 + s2)/3)] and [floor((s1 + 2*s2)/3)] at positions [3i],
    [3i+1], [3i+2]; the final input sample fills the last three
    positions; and a frame that is constantly [c] gives an output that
    is constantly [c]. *)
Theorem resample_8k_to_24k (samples : list Z) :
  pcm_frame samples → samples ≠ [] →
  ∃ out, resample samples 8000 24000 = Ok out ∧
    length out = (3 * length samples)%nat ∧
    (∀ i s1 s2, samples !! i = Some s1 → samples !! S i = Some s2 →
       out !! (3 * i)%nat = Some s1 ∧
       out !! (3 * i + 1)%nat = Some ((2 * s1 + s2) `div` 3) ∧
       out !! (3 * i + 2)%nat = Some ((s1 + 2 * s2) `div` 3)) ∧
    (∀ s, samples !! (length samples - 1)%nat = Some s →
       out !! (3 * (length samples - 1))%nat = Some s ∧
       out !! (3 * (length samples - 1) + 1)%nat = Some s ∧
       out !! (3 * (length samples - 1) + 2)%nat = Some s) ∧
    (∀ c, Forall (eq c) samples → Forall (eq c) out).
Proof.
  intros Hf Hne. exists (upsample3 samples).
  destruct (upsample3_spec samples Hf Hne) as (Hlen & Hpair & Hlast).
  split; [reflexivity|]. split; [exact Hlen|].
  split; [exact Hpair|]. split; [exact Hlast|].
  intros c. by apply upsample3_constant.
Qed.

Lemma resample_8k_to_24k_witness :
  pcm_frame [0; 3; -7] ∧ [0; 3; -7] ≠ [] ∧
  ∃ out, resample [0; 3; -7] 8000 24000 = Ok out ∧
    length out = 9%nat ∧ out !! 4%nat = Some (-1).
Proof.
  assert (Hf : pcm_frame [0; 3; -7]).
  { repeat constructor; unfold INT16_MIN, INT16_MAX; lia. }
  assert (Hne : [0; 3; -7] ≠ @nil Z) by discriminate.
  split; [exact Hf|]. split; [exact Hne|].
  destruct (resample_8k_to_24k [0; 3; -7] Hf Hne)
    as (out & Hout & Hlen & Hpair & _).
  exists out. split; [exact Hout|]. split; [exact Hlen|].
  exact (proj1 (proj2 (Hpair 1%nat 3 (-7) eq_refl eq_refl))).
Defined.

(** Claim C7.  Resampling a PCM frame of [n] samples from 24000 to
    8000 Hz returns [floor(n/3)] samples, the [i]-th being the floor of
    the mean of the [i]-th consecutive triple of input samples; since
    the output has no further positions, a trailing remainder of fewer
    than three samples is dropped. *)
Theorem resample_24k_to_8k (samples : list Z) :
  pcm_frame samples →
  ∃ out, resample samples 24000 8000 = Ok out ∧
    length out = (length samples `div` 3)%nat ∧
    ∀ i a b c,
      samples !! (3 * i)%nat = Some a →
      samples !! (3 * i + 1)%nat = Some b →
      samples !! (3 * i + 2)%nat = Some c →
      out !! i = Some ((a + b + c) `div` 3).
Proof.
  intros Hf. exists (downsample3 samples).
  destruct (downsample3_spec samples Hf) as [Hlen Hinv].
  split; [reflexivity|]. split; [exact Hlen|].
  intros i a b c Ha Hb Hc. apply (Hinv i a b c); [|done..].
  apply lookup_lt_Some in Hc.
  pose proof (Nat.div_mod_eq (length samples) 3).
  pose proof (Nat.mod_upper_bound (length samples) 3). lia.
Qed.

Lemma resample_24k_to_8k_witness :
  pcm_frame [0; 3; -7; 5; 5] ∧
  ∃ out, resample [0; 3; -7; 5; 5] 24000 8000 = Ok out ∧
    length out = 1%nat ∧ out !! 0%nat = Some (-2).
Proof.
  assert (Hf : pcm_frame [0; 3; -7; 5; 5]).
  { repeat constructor; unfold INT16_MIN, INT16_MAX; lia. }
  split; [exact Hf|].
  destruct (resample_24k_to_8k [0; 3; -7; 5; 5] Hf) as (out & Hout & Hlen & Hinv).
  exists out. split; [exact Hout|]. split; [exact Hlen|].
  exact (Hinv 0%nat 0 3 (-7) eq_refl eq_refl eq_refl).
Defined.

(** Claim C8.  With equal rates [resample] returns its argument: the
    same buffer object (the same address, in an unchanged store), hence
    the same samples. *)
Theorem resample_same_rate (store : list (list Z)) (data : nat)
    (samples : list Z) (r : Z) :
  resample_ref store data r r = Ok (store, data) ∧
  resample samples r r = Ok samples.
Proof.
  unfold resample_ref, resample. by rewrite Z.eqb_refl.
Qed.

Lemma upsample3_nil : upsample3 [] = [].
Proof. reflexivity. Qed.

Lemma downsample3_nil : downsample3 [] = [].
Proof. reflexivity. Qed.

Lemma Qfloor_zero_times (q : Q) : Qfloor (inject_Z 0 * q)%Q = 0.
Proof.
  destruct q as [p d]. unfold Qfloor, Qmult, inject_Z. simpl.
  apply Z.div_0_l. lia.
Qed.

Lemma generic_nil (fromRate toRate : Z) : generic [] fromRate toRate = Ok [].
Proof.
  unfold generic. change (Z.of_nat (length (@nil Z))) with 0.
  destruct (fromRate =? 0); [done|].
  rewrite Qfloor_zero_times. reflexivity.
Qed.

(** Claim C10.  For every pair of rates, resampling the empty frame
    returns the empty frame: in particular the 8000 to 24000 branch,
    whose boundary stores then fall at negative indices, and the generic
    branch, whose loop does not run. *)
Theorem resample_empty (fromRate toRate : Z) :
  resample [] fromRate toRate = Ok [] ∧
  upsample3 [] = [] ∧
  generic [] fromRate toRate = Ok [].
Proof.
  split; [|split; [reflexivity|apply generic_nil]].
  unfold resample, resample_body.
  destruct (fromRate =? toRate); [done|].
  destruct ((fromRate =? 8000) && (toRate =? 24000)); [done|].
  destruct ((fromRate =? 24000) && (toRate =? 8000)); [done|].
  apply generic_nil.
Qed.

Section Companding.

Lemma MU_LAW_TABLE_generated : MU_LAW_TABLE = generateMuLawTable.
Proof. vm_compute. reflexivity. Qed.

Lemma decode_code (e m : Z) :
  0 ≤ e ≤ 7 → 0 ≤ m ≤ 15 →
  decode_byte (code 0 e m) = level e m ∧
  decode_byte (code 0x80 e m) = - level e m.
Proof.
  intros He Hm.
  assert (e = 0 ∨ e = 1 ∨ e = 2 ∨ e = 3 ∨ e = 4 ∨ e = 5 ∨ e = 6 ∨ e = 7)
    as He' by lia.
  assert (m = 0 ∨ m = 1 ∨ m = 2 ∨ m = 3 ∨ m = 4 ∨ m = 5 ∨ m = 6 ∨ m = 7 ∨
          m = 8 ∨ m = 9 ∨ m = 10 ∨ m = 11 ∨ m = 12 ∨ m = 13 ∨ m = 14 ∨ m = 15)
    as Hm' by lia.
  destruct_or!; subst e m; split; reflexivity.
Qed.

Lemma magnitude_range (x : Z) : 132 ≤ magnitude x ≤ 32767.
Proof.
  unfold magnitude, CLIP, BIAS.
  destruct (x <? 0) eqn:Hs;
    [apply Z.ltb_lt in Hs | apply Z.ltb_ge in Hs].
  - destruct (- x >? 32635) eqn:Hc; [lia|].
    rewrite Z.gtb_ltb in Hc. apply Z.ltb_ge in Hc. lia.
  - destruct (x >? 32635) eqn:Hc; [lia|].
    rewrite Z.gtb_ltb in Hc. apply Z.ltb_ge in Hc. lia.
Qed.

(** Segment and mantissa of a biased magnitude, and how far the decoding
    level is from it. *)
Lemma segment_mantissa (m : Z) :
  132 ≤ m ≤ 32767 →
  let e := Z.log2 m - 7 in
  let mant := Z.land (Z.shiftr m (e + 3)) 0x0f in
  0 ≤ e ≤ 7 ∧ 0 ≤ mant ≤ 15 ∧
  Z.abs (level e mant + 132 - m) ≤ 4 * 2 ^ e.
Proof.
  intros Hm e mant.
  assert (7 ≤ Z.log2 m ≤ 14) as Hl.
  { split.
    - change 7 with (Z.log2 132). apply Z.log2_le_mono. lia.
    - change 14 with (Z.log2 32767). apply Z.log2_le_mono. lia. }
  pose proof (Z.log2_spec m ltac:(lia)) as Hspec.
  assert (Hmant : mant = (m `div` 2 ^ (e + 3)) `mod` 16).
  { unfold mant. rewrite Z.shiftr_div_pow2 by lia.
    change 0x0f with (Z.ones 4). rewrite Z.land_ones by lia. reflexivity. }
  rewrite Hmant. unfold level. clear Hmant mant. subst e.
  assert (Z.log2 m = 7 ∨ Z.log2 m = 8 ∨ Z.log2 m = 9 ∨ Z.log2 m = 10 ∨
          Z.log2 m = 11 ∨ Z.log2 m = 12 ∨ Z.log2 m = 13 ∨ Z.log2 m = 14)
    as Hcases by lia.
  destruct_or!; rewrite Hcases in *; cbn in Hspec |- *;
    Z.div_mod_to_equations; lia.
Qed.

Lemma roundtrip_sample (x : Z) :
  is_int16 x → Z.abs (decode_byte (encode_sample x) - x) ≤ quant_step x.
Proof.
  unfold is_int16, INT16_MIN, INT16_MAX. intros Hx.
  pose proof (magnitude_range x) as Hm.
  destruct (segment_mantissa (magnitude x) Hm) as (He & Hmant & Hdist).
  unfold quant_step, exponent_of. rewrite Z.shiftl_mul_pow2 by lia.
  unfold encode_sample. fold (code (if x <? 0 then 128 else 0)
    (Z.log2 (magnitude x) - 7)
    (Z.land (Z.shiftr (magnitude x) (Z.log2 (magnitude x) - 7 + 3)) 15)).
  destruct (decode_code _ _ He Hmant) as [Hpos Hneg].
  set (e := Z.log2 (magnitude x) - 7) in *.
  set (mant := Z.land _ 15) in *.
  assert (0 < 2 ^ e) by (apply Z.pow_pos_nonneg; lia).
  assert (Hclip : magnitude x = 32767 → e = 7).
  { intros Hmag. unfold e. rewrite Hmag. reflexivity. }
  unfold magnitude, CLIP, BIAS in Hdist, Hclip.
  destruct (x <? 0) eqn:Hs;
    [apply Z.ltb_lt in Hs; rewrite Hneg | apply Z.ltb_ge in Hs; rewrite Hpos].
  - destruct (- x >? 32635) eqn:Hc.
    + rewrite (Hclip eq_refl) in *. change (2 ^ 7) with 128 in *.
      apply Z.gtb_lt in Hc. lia.
    + rewrite Z.gtb_ltb in Hc. apply Z.ltb_ge in Hc. lia.
  - destruct (x >? 32635) eqn:Hc.
    + rewrite (Hclip eq_refl) in *. change (2 ^ 7) with 128 in *.
      apply Z.gtb_lt in Hc. lia.
    + rewrite Z.gtb_ltb in Hc. apply Z.ltb_ge in Hc. lia.
Qed.

(** Neighbouring decoding levels of a segment are one quantization step
    apart. *)
Lemma level_step (e m : Z) :
  0 ≤ e → level e (m + 1) - level e m = 8 * 2 ^ e.
Proof. intros He. unfold level. ring. Qed.

Lemma quant_step_levels (x : Z) :
  quant_step x = level (exponent_of x) 1 - level (exponent_of x) 0.
Proof.
  pose proof (magnitude_range x) as Hm.
  destruct (segment_mantissa (magnitude x) Hm) as (He & _ & _).
  unfold quant_step, exponent_of in *.
  rewrite Z.shiftl_mul_pow2 by lia.
  by rewrite (level_step _ 0) by lia.
Qed.

(** The round trip is not the identity. *)
Lemma roundtrip_lossy : ulaw2pcm (pcm2ulaw [1]) = [0].
Proof. reflexivity. Qed.

End Companding.

(** Claim C3.  Encoding a PCM frame with [pcm2ulaw] and decoding the
    result with [ulaw2pcm] gives a frame of the same length, each sample
    of which differs from the original by at most the quantization step
    of the segment the original falls in. *)
Theorem ulaw_roundtrip_bounded (frame : list Z) :
  pcm_frame frame →
  length (ulaw2pcm (pcm2ulaw frame)) = length frame ∧
  ∀ i x, frame !! i = Some x →
    ∃ y, ulaw2pcm (pcm2ulaw frame) !! i = Some y ∧
         Z.abs (y - x) ≤ quant_step x.
Proof.
  intros Hf. unfold ulaw2pcm, pcm2ulaw. split.
  - by rewrite !length_map.
  - intros i x Hx. exists (decode_byte (encode_sample x)). split.
    + by rewrite !list_lookup_fmap, Hx.
    + apply roundtrip_sample. by eapply pcm_frame_lookup.
Qed.

Lemma ulaw_roundtrip_bounded_witness :
  pcm_frame [1000; -32768] ∧
  length (ulaw2pcm (pcm2ulaw [1000; -32768])) = 2%nat ∧
  ∃ y, ulaw2pcm (pcm2ulaw [1000; -32768]) !! 0%nat = Some y ∧
       Z.abs (y - 1000) ≤ quant_step 1000.
Proof.
  assert (Hf : pcm_frame [1000; -32768]).
  { repeat constructor; unfold INT16_MIN, INT16_MAX; lia. }
  split; [exact Hf|].
  destruct (ulaw_roundtrip_bounded [1000; -32768] Hf) as [Hlen Hbound].
  split; [exact Hlen|].
  exact (Hbound 0%nat 1000 eq_refl).
Defined.

(** Claim C9.  [executeTool] returns a result for every tool name and
    argument record: for ["end_call"] one that carries the end-call
    action tag, the confirmation message and the reason given; for any
    other name one whose data holds the "Unknown tool" error. *)
Theorem executeTool_never_throws (toolName : string)
    (args : gmap string JsVal) :
  ∃ res, executeTool toolName (Some args) = Ok res ∧
    ((toolName = "end_call" ∧
      action res = Some "end_call" ∧
      message res = Some "Ending call..." ∧
      extra res !! "reason" = Some (default JUndefined (args !! "reason")))
     ∨
     (toolName ≠ "end_call" ∧
      action res = None ∧
      extra res !! "error" = Some (JStr ("Unknown tool: " +:+ toolName)))).
Proof.
  unfold executeTool. destruct (decide (toolName = "end_call")) as [->|Hne].
  - eexists. split; [reflexivity|]. left. simpl.
    split; [reflexivity|]. split; [reflexivity|]. split; [reflexivity|].
    apply lookup_singleton_eq.
  - eexists. split; [reflexivity|]. right. simpl.
    split; [exact Hne|]. split; [reflexivity|].
    apply lookup_singleton_eq.
Qed.

Section Media.

Lemma clears_app (l k : list Op) : clears (l ++ k) = (clears l + clears k)%nat.
Proof. unfold clears. by rewrite filter_app, length_app. Qed.

Lemma isConnected_guard (g : GeminiClient) :
  isConnected g = true → notConnected g = false.
Proof.
  unfold isConnected, notConnected.
  destruct g as [[rs|] b]; cbn [g_ws isSetupComplete]; [|done].
  intros [_ ->]%andb_prop.
  by rewrite bool_decide_eq_true_2 by eauto.
Qed.

Lemma handleMedia_try_loud (s : CallSession) (m : MediaInfo) (st : State) :
  rms_exceeds (ulaw2pcm (payload m)) BARGE_IN_THRESHOLD = true →
  let ready := isConnected (geminiClient st) in
  fst (handleMedia_try s m st) = Ok tt ∧
  trace (snd (handleMedia_try s m st)) =
    trace st ++
      [WsSend (ClearEvent (streamSid s)); GeminiIsConnected ready] ++
      (if ready
       then [GeminiSendAudio (upsample3 (ulaw2pcm (payload m)))] else []).
Proof.
  intros Hloud ready. subst ready.
  unfold handleMedia_try, bind, act, queryConnected, ret, lift. simpl.
  rewrite Hloud. simpl.
  assert (Hg : ∀ t, geminiClient (clearIfSet t
      (set_session (Some (with_lastActivityTime (now st) s)) st)) = geminiClient st).
  { by intros [h|]. }
  assert (Ht : ∀ t, trace (clearIfSet t
      (set_session (Some (with_lastActivityTime (now st) s)) st)) = trace st).
  { by intros [h|]. }
  rewrite Hg.
  destruct (isConnected (geminiClient st)) eqn:Hc; simpl.
  - unfold sendAudio, guarded_send. simpl. rewrite Hg.
    rewrite (isConnected_guard _ Hc). simpl. rewrite Ht.
    split; [done|]. by rewrite <- !app_assoc.
  - rewrite Ht. split; [done|]. by rewrite <- !app_assoc.
Qed.

End Media.

(** Claim C5, as stated, fails: a loud inbound frame that arrives
    before the session record exists (for instance while the AI
    handshake is in progress) is dropped by the guard of [handleMedia],
    and no [clear] is sent. *)
Lemma barge_in_needs_session : ¬ barge_in_on_every_frame.
Proof.
  intros H.
  specialize (H (initial ∅ idle_client) loud_frame
                {| track := inbound; payload := [0; 0] |}
                eq_refl eq_refl eq_refl).
  discriminate H.
Qed.

(** Claim C5, amended.  Once the session record exists, an inbound
    frame whose RMS exceeds the barge-in threshold makes [handleMedia]
    send exactly one [clear] event, before it asks whether the AI link is
    connected and before any audio is forwarded, whatever the answer; if
    the link is not connected nothing more is sent, and no exception is
    raised. *)
Theorem barge_in_clear_first (st : State) (msg : TwilioStreamMessage)
    (m : MediaInfo) (s : CallSession) :
  session st = Some s →
  media msg = Some m → track m = inbound →
  rms_exceeds (ulaw2pcm (payload m)) BARGE_IN_THRESHOLD = true →
  let ready := isConnected (geminiClient st) in
  fst (handleMedia_try s m st) = Ok tt ∧
  trace (handleMedia msg st) =
    trace st ++
      [WsSend (ClearEvent (streamSid s)); GeminiIsConnected ready] ++
      (if ready
       then [GeminiSendAudio (upsample3 (ulaw2pcm (payload m)))] else []) ∧
  clears (trace (handleMedia msg st)) = S (clears (trace st)).
Proof.
  intros Hs Hm Htrack Hloud ready.
  destruct (handleMedia_try_loud s m st Hloud) as [Hok Htr].
  assert (Hrun : handleMedia msg st = snd (handleMedia_try s m st)).
  { unfold handleMedia. rewrite Hm, Hs. by rewrite decide_True. }
  rewrite Hrun. split; [exact Hok|]. split; [exact Htr|].
  rewrite Htr, clears_app. fold ready.
  assert (clears ([WsSend (ClearEvent (streamSid s)); GeminiIsConnected ready] ++
            (if ready
             then [GeminiSendAudio (upsample3 (ulaw2pcm (payload m)))]
             else [])) = 1%nat) as ->
    by (by destruct ready).
  lia.
Qed.

Lemma barge_in_clear_first_witness :
  session started = Some session_CA1 ∧
  trace (handleMedia loud_frame started) =
    trace started ++ [WsSend (ClearEvent "MZ1"); GeminiIsConnected true;
                      GeminiSendAudio (upsample3 (ulaw2pcm [0; 0]))].
Proof.
  split; [reflexivity|].
  exact (proj1 (proj2 (barge_in_clear_first started loud_frame
                         {| track := inbound; payload := [0; 0] |} session_CA1
                         eq_refl eq_refl eq_refl eq_refl))).
Defined.

Section EndCall.

Lemma removed_not_elem (a : string) (reg : gset string) : a ∉ reg ∖ {[ a ]}.
Proof.
  intros [_ Hne]%elem_of_difference. apply Hne. by apply elem_of_singleton.
Qed.


Lemma endCall_no_session (why : string) (st : State) :
  session st = None → endCall why st = st.
Proof. unfold endCall. by intros ->. Qed.

(** [endCall] field by field. *)
Lemma endCall_fields (why : string) (st : State) (s : CallSession) :
  session st = Some s →
  endCall why st =
    {| now := now st;
       timers := without (maxDurationTimer st) (without (silenceTimer st) (timers st));
       nextTimer := nextTimer st;
       phoneNumberVar := phoneNumberVar st;
       voiceIdVar := voiceIdVar st;
       session := Some (with_isActive false s);
       silenceTimer := silenceTimer st;
       maxDurationTimer := maxDurationTimer st;
       activeSessions := activeSessions st ∖ {[ callSid s ]};
       geminiClient := closed_client (geminiClient st);
       twilioWs := closing (twilioWs st);
       trace := trace st ++ closes st;
       endLog := endLog st ++ [why] |}.
Proof.
  intros Hs. unfold endCall. rewrite Hs.
  destruct st as [nw ts nt pn vi se sil mx reg [gws gsc] tw tr el].
  simpl in Hs. subst se.
  unfold closes, closed_client, closing, gemini_close, ws_close, clearIfSet, push.
  destruct sil as [sil|], mx as [mx|], gws as [gws|], tw; simpl;
    rewrite ?app_nil_r, <- ?app_assoc; reflexivity.
Qed.

Lemma without_twice (h : option nat) (ts : list Timer) :
  without h (without h ts) = without h ts.
Proof.
  destruct h as [h|]; [|done]. simpl.
  by apply list_filter_filter_l.
Qed.

Lemma without_comm (h k : option nat) (ts : list Timer) :
  without h (without k ts) = without k (without h ts).
Proof.
  destruct h as [h|], k as [k|]; simpl; try done.
  rewrite !list_filter_filter. apply list_filter_iff. intros t. tauto.
Qed.

Lemma without_pair_twice (h k : option nat) (ts : list Timer) :
  without h (without k (without h (without k ts))) = without h (without k ts).
Proof.
  rewrite (without_comm k h (without k ts)). by rewrite !without_twice.
Qed.



Lemma closing_not_open (rs : ReadyState) : closing rs ≠ OPEN.
Proof. by destruct rs. Qed.

Lemma closes_after_endCall (why : string) (st : State) (s : CallSession) :
  session st = Some s → closes (endCall why st) = [].
Proof.
  intros Hs. rewrite (endCall_fields why st s Hs). unfold closes. simpl.
  by destruct (geminiClient st) as [[rs|] b], (twilioWs st).
Qed.


End EndCall.



Section Timers.

Lemma next_due_none (target : Z) (ts : list Timer) :
  Forall (λ t, target < due t) ts → next_due target ts = None.
Proof.
  intros Hall. unfold next_due.
  assert (filter (λ t, due t ≤ target) ts = []) as ->; [|done].
  induction Hall as [|t ts Ht _ IH]; [done|].
  rewrite filter_cons_False by lia. exact IH.
Qed.

Lemma next_due_last (target : Z) (ts : list Timer) (t : Timer) :
  Forall (λ t, target < due t) ts → due t ≤ target →
  next_due target (ts ++ [t]) = Some t.
Proof.
  intros Hall Ht. unfold next_due. rewrite filter_app.
  assert (filter (λ t, due t ≤ target) ts = []) as ->.
  { induction Hall as [|t' ts Ht' _ IH]; [done|].
    rewrite filter_cons_False by lia. exact IH. }
  simpl. by rewrite filter_cons_True, filter_nil.
Qed.

Lemma fire_idle (fuel : nat) (target : Z) (st : State) :
  next_due target (timers st) = None → fire fuel target st = st.
Proof. intros H. destruct fuel; [done|]. simpl. by rewrite H. Qed.

Lemma Forall_without (P : Timer → Prop) (h : option nat) (ts : list Timer) :
  Forall P ts → Forall P (without h ts).
Proof.
  destruct h as [h|]; [|done]. simpl. intros H.
  apply Forall_forall. intros t [_ Ht]%list_elem_of_filter.
  by eapply (proj1 (Forall_forall _ _) H).
Qed.

End Timers.

Section TurnLimit.

Variables (st : State) (s : CallSession).
Hypothesis Hsession : session st = Some s.
Hypothesis Hactive : isActive s = true.
Hypothesis Hturns : aiTurnCount s = 4.
Hypothesis Hlink : notConnected (geminiClient st) = false.


End TurnLimit.

Section GraceWindow.



Lemma now_endCall (why : string) (st : State) : now (endCall why st) = now st.
Proof.
  destruct (session st) as [s|] eqn:Hs.
  - by rewrite (endCall_fields why st s Hs).
  - by rewrite endCall_no_session.
Qed.

Lemma elapse_idle (ms : Z) (st : State) :
  0 ≤ ms → Forall (λ t, now st + ms < due t) (timers st) →
  elapse ms st = set_now (now st + ms) st.
Proof.
  intros Hms Hall. unfold elapse.
  rewrite fire_idle by (by apply next_due_none).
  f_equal. lia.
Qed.

End GraceWindow.

Section Fuel.

Lemma foldl_earlier_elem (t : Timer) (rest : list Timer) :
  foldl earlier t rest ∈ t :: rest.
Proof.
  revert t. induction rest as [|u rest IH]; intros t; simpl.
  - apply elem_of_cons. by left.
  - specialize (IH (earlier t u)).
    apply elem_of_cons in IH as [->|IH].
    + unfold earlier. rewrite !elem_of_cons.
      destruct (due u <? due t); auto.
    + rewrite !elem_of_cons. auto.
Qed.

Lemma next_due_elem (target : Z) (ts : list Timer) (t : Timer) :
  next_due target ts = Some t → t ∈ ts ∧ due t ≤ target.
Proof.
  unfold next_due.
  destruct (filter (λ t, due t ≤ target) ts) as [|u rest] eqn:Hf; [done|].
  intros [= <-].
  pose proof (foldl_earlier_elem u rest) as Hin.
  rewrite <- Hf in Hin. by apply list_elem_of_filter in Hin as [? ?].
Qed.

Lemma next_due_none_inv (target : Z) (ts : list Timer) :
  next_due target ts = None → Forall (λ t, target < due t) ts.
Proof.
  unfold next_due.
  destruct (filter (λ t, due t ≤ target) ts) as [|u rest] eqn:Hf; [|done].
  intros _. apply Forall_forall. intros t Ht.
  destruct (decide (due t ≤ target)) as [Hle|]; [|lia].
  assert (t ∈ filter (λ t, due t ≤ target) ts)
    by (by apply list_elem_of_filter).
  rewrite Hf in H. by apply elem_of_nil in H.
Qed.

Lemma length_without (h : option nat) (ts : list Timer) :
  (length (without h ts) ≤ length ts)%nat.
Proof. destruct h; [apply length_filter|done]. Qed.

Lemma length_cleared (t : Timer) (ts : list Timer) :
  t ∈ ts →
  (length (filter (λ u, timer_id u ≠ timer_id t) ts) < length ts)%nat.
Proof. intros Ht. apply (length_filter_lt _ _ t Ht). by intros H. Qed.

Lemma timers_endCall (why : string) (st : State) :
  (length (timers (endCall why st)) ≤ length (timers st))%nat.
Proof.
  destruct (session st) as [s|] eqn:Hs.
  - rewrite (endCall_fields why st s Hs). simpl.
    pose proof (length_without (maxDurationTimer st)
                  (without (silenceTimer st) (timers st))).
    pose proof (length_without (silenceTimer st) (timers st)). lia.
  - by rewrite endCall_no_session.
Qed.

Lemma timers_run_timer (t : Timer) (st : State) :
  t ∈ timers st →
  (length (timers (run_timer t st)) < length (timers st))%nat.
Proof.
  intros Ht. unfold run_timer.
  pose proof (timers_endCall (reason t)
    (set_now (Z.max (now (clearTimeout (timer_id t) st)) (due t))
       (clearTimeout (timer_id t) st))) as Hle.
  pose proof (length_cleared t (timers st) Ht) as Hlt.
  eapply Nat.le_lt_trans; [exact Hle|exact Hlt].
Qed.

(** With one round per pending timer, [fire] stops only when nothing
    is due any more. *)
Lemma fire_complete (fuel : nat) (target : Z) (st : State) :
  (length (timers st) ≤ fuel)%nat →
  next_due target (timers (fire fuel target st)) = None.
Proof.
  revert st. induction fuel as [|fuel IH]; intros st Hlen; simpl.
  - destruct (timers st); [done|simpl in Hlen; lia].
  - destruct (next_due target (timers st)) as [t|] eqn:Hnext; [|done].
    apply IH. apply next_due_elem in Hnext as [Ht _].
    pose proof (timers_run_timer t st Ht). lia.
Qed.

Lemma elapse_complete (ms : Z) (st : State) :
  Forall (λ t, now st + ms < due t) (timers (elapse ms st)).
Proof.
  unfold elapse. simpl. apply next_due_none_inv. by apply fire_complete.
Qed.

End Fuel.

Section Ended.

Lemma endCall_ends (why : string) (st : State) (s : CallSession) :
  session st = Some s →
  ended (endCall why st) ∧ trace (endCall why st) = trace st ++ closes st.
Proof.
  intros Hs. split.
  - exists (with_isActive false s).
    pose proof (closes_after_endCall why st s Hs) as Hc.
    rewrite (endCall_fields why st s Hs) in *. simpl.
    split; [done|]. split; [done|]. split; [apply removed_not_elem|done].
  - by rewrite (endCall_fields why st s Hs).
Qed.

Lemma endCall_when_ended (why : string) (st : State) :
  ended st → ended (endCall why st) ∧ trace (endCall why st) = trace st.
Proof.
  intros (s & Hs & Hact & Hreg & Hc).
  destruct (endCall_ends why st s Hs) as [He Htr].
  split; [exact He|]. by rewrite Htr, Hc, app_nil_r.
Qed.

Lemma run_timer_when_ended (t : Timer) (st : State) :
  ended st → ended (run_timer t st) ∧ trace (run_timer t st) = trace st.
Proof.
  intros (s & Hs & Hact & Hreg & Hc). unfold run_timer.
  assert (Hpre : ended (set_now (Z.max (now (clearTimeout (timer_id t) st)) (due t))
                          (clearTimeout (timer_id t) st)))
    by (by exists s).
  destruct (endCall_when_ended (reason t) _ Hpre) as [He Htr].
  split; [exact He|exact Htr].
Qed.

Lemma fire_when_ended (fuel : nat) (target : Z) (st : State) :
  ended st →
  ended (fire fuel target st) ∧ trace (fire fuel target st) = trace st.
Proof.
  revert st. induction fuel as [|fuel IH]; intros st He; simpl; [done|].
  destruct (next_due target (timers st)) as [t|]; [|done].
  destruct (run_timer_when_ended t st He) as [He' Htr].
  destruct (IH _ He') as [He'' Htr'].
  split; [exact He''|]. by rewrite Htr', Htr.
Qed.



End Ended.




(** A [stop] event followed by whatever timers are still pending. *)
Lemma stop_then_timers (st : State) (s : CallSession)
    (m : TwilioStreamMessage) (ms : Z) :
  session st = Some s →
  ended (elapse ms (handleStop m st)) ∧
  trace (elapse ms (handleStop m st)) = trace st ++ closes st.
Proof.
  intros Hs. unfold handleStop, elapse.
  destruct (endCall_ends "completed" st s Hs) as [He Htr].
  destruct (fire_when_ended (length (timers (endCall "completed" st)))
              (now (endCall "completed" st) + ms) _ He) as [He' Htr'].
  split.
  - destruct He' as (s' & ? & ? & ? & ?). by exists s'.
  - simpl. by rewrite Htr', Htr.
Qed.

(** Whatever the [start] event carries, [handleStart] leaves the silence
    timer unarmed: the maximum-duration timer is the only one pending,
    and for five minutes nothing ends the call unless an event does. *)
Lemma start_arms_no_silence_timer (m : TwilioStreamMessage) (info : StartInfo)
    (reg : gset string) (g : GeminiClient) (ms : Z) :
  start m = Some info → 0 ≤ ms < MAX_CALL_DURATION →
  let st := handleStart true m (initial reg g) in
  silenceTimer st = None ∧
  timers st = [{| timer_id := 0; due := MAX_CALL_DURATION; reason := "max_duration" |}] ∧
  option_map isActive (session (elapse ms st)) = Some true ∧
  endLog (elapse ms st) = [] ∧
  trace (elapse ms st) = trace st.
Proof.
  intros Hstart Hms st.
  assert (Hst : silenceTimer st = None ∧
    timers st = [{| timer_id := 0; due := MAX_CALL_DURATION; reason := "max_duration" |}] ∧
    option_map isActive (session st) = Some true ∧ endLog st = [] ∧ now st = 0).
  { unfold st, handleStart. rewrite Hstart.
    by destruct (customParameters info). }
  destruct Hst as (Hsil & Htimers & Hact & Hlog & Hnow).
  split; [exact Hsil|]. split; [exact Htimers|].
  rewrite elapse_idle.
  - split; [exact Hact|]. split; [exact Hlog|reflexivity].
  - lia.
  - rewrite Htimers, Hnow. repeat constructor. simpl. lia.
Qed.

(** Claim C1 at its scenario.  After a [start] event and sixteen
    seconds without any media event, the session is still active and
    registered, no [endCall] has run, both connections are open, and the
    only pending timer is the maximum-duration timer: [handleStart] does
    not arm the silence timer. *)
Theorem start_then_silence_16s :
  let st := run [Message start_CA1 true; Elapse 16000] (initial ∅ idle_client) in
  now st = 16000 ∧
  session st = Some session_CA1 ∧
  isActive session_CA1 = true ∧
  silenceTimer st = None ∧
  timers st = [max_timer] ∧
  endLog st = [] ∧
  activeSessions st = {[ "CA1" ]} ∪ ∅ ∧
  isConnected (geminiClient st) = true ∧
  twilioWs st = OPEN ∧
  trace st = [GeminiOpen "Puck"; GeminiSendMessage openingMessage].
Proof. cbv zeta. repeat split; reflexivity. Qed.

(** Once one media event has armed it, the silence timer does end the
    call. *)
Lemma silence_timeout_after_media :
  let st := run [Message start_CA1 true; Message quiet_frame true; Elapse 15000]
                (initial ∅ idle_client) in
  endLog st = ["silence_timeout"] ∧
  option_map isActive (session st) = Some false ∧
  twilioWs st = CLOSING ∧
  g_ws (geminiClient st) = None.
Proof. cbv zeta. repeat split; reflexivity. Qed.

(** Six turn completions, the sixth inside the grace window, then a
    [stop]: [endCall] runs three times and the sockets are closed
    once. *)
Lemma six_turn_completes :
  let st := run (replicate 5 (Response turn_complete) ++
                 [Elapse 1000; Response turn_complete; Elapse 999]) started in
  let st' := run [Elapse 1; Elapse 1000; Message stop_msg true] st in
  option_map isActive (session st) = Some true ∧
  option_map aiTurnCount (session st) = Some 6 ∧
  endLog st = [] ∧
  option_map isActive (session st') = Some false ∧
  endLog st' = ["completed"; "completed"; "completed"] ∧
  trace st' = trace started ++ [GeminiSocketClose; WsClose 1000 "Call ended"] ∧
  elements (activeSessions st') = [].
Proof. cbv zeta. repeat split; reflexivity. Qed.


(** ** Further properties of the code *)

Section CompandingMore.

Lemma land_255 (a : Z) : 0 ≤ Z.land a 255 ≤ 255.
Proof.
  replace (Z.land a 255) with (a `mod` 256).
  - pose proof (Z.mod_pos_bound a 256 eq_refl). lia.
  - change 255 with (Z.ones 8). by rewrite Z.land_ones by lia.
Qed.

Lemma encode_is_byte (x : Z) : is_byte (encode_sample x).
Proof. apply land_255. Qed.

Lemma byte_cases (b : Z) : is_byte b → b ∈ seqZ 0 256.
Proof. unfold is_byte. intros. apply elem_of_seqZ. lia. Qed.

Lemma reencodes_all : forallb reencodes (seqZ 0 256) = true.
Proof. vm_compute. reflexivity. Qed.

Lemma encode_decode_byte (b : Z) :
  is_byte b → b ≠ 127 → encode_sample (decode_byte b) = b.
Proof.
  intros Hb Hne. pose proof reencodes_all as Hall.
  rewrite forallb_forall in Hall.
  specialize (Hall b (proj1 (list_elem_of_In _ _) (byte_cases b Hb))).
  unfold reencodes in Hall. apply orb_prop in Hall as [H|H].
  - apply Z.eqb_eq in H. lia.
  - by apply Z.eqb_eq in H.
Qed.

Lemma decoded_bound_all : forallb decoded_bound (seqZ 0 256) = true.
Proof. vm_compute. reflexivity. Qed.

Lemma decode_byte_bound (b : Z) : Z.abs (decode_byte b) ≤ 32124.
Proof.
  destruct (decide (is_byte b)) as [Hb|Hb].
  - pose proof decoded_bound_all as Hall. rewrite forallb_forall in Hall.
    specialize (Hall b (proj1 (list_elem_of_In _ _) (byte_cases b Hb))).
    by apply Z.leb_le in Hall.
  - unfold decode_byte, ta_get.
    destruct (Z.ltb_spec b 0) as [|Hge]; [done|].
    rewrite lookup_ge_None_2; [done|].
    unfold is_byte in Hb. change (length MU_LAW_TABLE) with 256%nat. lia.
Qed.

End CompandingMore.

(** Property X1.  [ulaw2pcm] accepts every input: whatever the bytes
    (values outside 0..255 are absent table entries and decode to 0),
    the output has one sample per input byte, every sample is a 16-bit
    value, and its magnitude is at most 32124, the largest level of the
    decode table. *)
Theorem ulaw2pcm_valid_frame (data : list Z) :
  length (ulaw2pcm data) = length data ∧
  pcm_frame (ulaw2pcm data) ∧
  Forall (λ y, Z.abs y ≤ 32124) (ulaw2pcm data).
Proof.
  unfold ulaw2pcm. split; [by rewrite length_map|].
  assert (H : Forall (λ y, Z.abs y ≤ 32124) (map decode_byte data)).
  { apply Forall_forall. intros y Hy. apply list_elem_of_fmap in Hy as (b & -> & _).
    apply decode_byte_bound. }
  split; [|exact H].
  eapply Forall_impl; [exact H|]. simpl.
  intros y Hy. unfold is_int16, INT16_MIN, INT16_MAX. lia.
Qed.

(** Property X2.  Decoding a mu-law frame and encoding it again gives
    back the same bytes, for every byte except 127 (the code of negative
    zero, which decodes to 0 and is encoded as 255). *)
Theorem pcm2ulaw_ulaw2pcm (data : list Z) :
  Forall (λ b, is_byte b ∧ b ≠ 127) data →
  pcm2ulaw (ulaw2pcm data) = data.
Proof.
  unfold pcm2ulaw, ulaw2pcm. induction 1 as [|b data [Hb Hne] _ IH]; [done|].
  simpl. rewrite encode_decode_byte by done. by f_equal.
Qed.

Lemma pcm2ulaw_ulaw2pcm_witness :
  Forall (λ b, is_byte b ∧ b ≠ 127) [0; 128; 255; 126] ∧
  pcm2ulaw (ulaw2pcm [0; 128; 255; 126]) = [0; 128; 255; 126].
Proof.
  assert (H : Forall (λ b, is_byte b ∧ b ≠ 127) [0; 128; 255; 126]).
  { repeat constructor; unfold is_byte; lia. }
  split; [exact H|exact (pcm2ulaw_ulaw2pcm _ H)].
Defined.

Lemma negative_zero_byte :
  ulaw2pcm [127] = [0] ∧ pcm2ulaw (ulaw2pcm [127]) = [255] ∧
  ulaw2pcm [255] = [0].
Proof. repeat split; reflexivity. Qed.

(** Property X3.  The codec round trip is idempotent: once a frame has
    gone through [pcm2ulaw] and [ulaw2pcm], a second pass changes
    nothing. *)
Theorem codec_roundtrip_idempotent (frame : list Z) :
  ulaw2pcm (pcm2ulaw (ulaw2pcm (pcm2ulaw frame))) = ulaw2pcm (pcm2ulaw frame).
Proof.
  unfold ulaw2pcm, pcm2ulaw. induction frame as [|x frame IH]; [done|].
  simpl. f_equal; [|exact IH].
  destruct (decide (encode_sample x = 127)) as [->|Hne]; [reflexivity|].
  by rewrite encode_decode_byte by (apply encode_is_byte || done).
Qed.

Section Symmetry.

Lemma roundtrip_value (x : Z) :
  decode_byte (encode_sample x) =
    if x <? 0 then - level_of (magnitude x) else level_of (magnitude x).
Proof.
  pose proof (magnitude_range x) as Hm.
  destruct (segment_mantissa (magnitude x) Hm) as (He & Hmant & _).
  destruct (decode_code _ _ He Hmant) as [Hpos Hneg].
  unfold encode_sample, level_of.
  fold (code (if x <? 0 then 128 else 0)
    (Z.log2 (magnitude x) - 7)
    (Z.land (Z.shiftr (magnitude x) (Z.log2 (magnitude x) - 7 + 3)) 15)).
  by destruct (x <? 0).
Qed.

Lemma level_of_closed (m : Z) :
  132 ≤ m ≤ 32767 →
  level_of m = (8 * (m `div` 2 ^ (Z.log2 m - 4)) + 4) * 2 ^ (Z.log2 m - 7) - 132.
Proof.
  intros Hm. unfold level_of, level.
  assert (7 ≤ Z.log2 m ≤ 14) as Hl.
  { split.
    - change 7 with (Z.log2 132). apply Z.log2_le_mono. lia.
    - change 14 with (Z.log2 32767). apply Z.log2_le_mono. lia. }
  pose proof (Z.log2_spec m ltac:(lia)) as Hspec.
  rewrite Z.shiftr_div_pow2 by lia.
  change 0x0f with (Z.ones 4). rewrite Z.land_ones by lia.
  replace (Z.log2 m - 7 + 3) with (Z.log2 m - 4) by lia.
  assert (Z.log2 m = 7 ∨ Z.log2 m = 8 ∨ Z.log2 m = 9 ∨ Z.log2 m = 10 ∨
          Z.log2 m = 11 ∨ Z.log2 m = 12 ∨ Z.log2 m = 13 ∨ Z.log2 m = 14)
    as Hcases by lia.
  destruct_or!; rewrite Hcases in *; cbn in Hspec |- *;
    Z.div_mod_to_equations; lia.
Qed.

Lemma level_of_nonneg (m : Z) : 132 ≤ m ≤ 32767 → 0 ≤ level_of m.
Proof.
  intros Hm. destruct (segment_mantissa m Hm) as (He & Hmant & _).
  unfold level_of, level.
  assert (1 ≤ 2 ^ (Z.log2 m - 7)) by (apply (Z.pow_le_mono_r 2 0); lia).
  nia.
Qed.

Lemma level_of_mono (m m' : Z) :
  132 ≤ m → m ≤ m' → m' ≤ 32767 → level_of m ≤ level_of m'.
Proof.
  intros Hlo Hle Hhi.
  rewrite !level_of_closed by lia.
  assert (Hl : ∀ k, 132 ≤ k ≤ 32767 → 7 ≤ Z.log2 k ≤ 14).
  { intros k Hk. split.
    - change 7 with (Z.log2 132). apply Z.log2_le_mono. lia.
    - change 14 with (Z.log2 32767). apply Z.log2_le_mono. lia. }
  pose proof (Hl m ltac:(lia)) as H1. pose proof (Hl m' ltac:(lia)) as H2.
  pose proof (Z.log2_le_mono m m' Hle) as Hmono.
  pose proof (Z.log2_spec m ltac:(lia)) as Hs1.
  pose proof (Z.log2_spec m' ltac:(lia)) as Hs2.
  assert (Z.log2 m = 7 ∨ Z.log2 m = 8 ∨ Z.log2 m = 9 ∨ Z.log2 m = 10 ∨
          Z.log2 m = 11 ∨ Z.log2 m = 12 ∨ Z.log2 m = 13 ∨ Z.log2 m = 14)
    as Hc1 by lia.
  assert (Z.log2 m' = 7 ∨ Z.log2 m' = 8 ∨ Z.log2 m' = 9 ∨ Z.log2 m' = 10 ∨
          Z.log2 m' = 11 ∨ Z.log2 m' = 12 ∨ Z.log2 m' = 13 ∨ Z.log2 m' = 14)
    as Hc2 by lia.
  destruct Hc1 as [Hc1|[Hc1|[Hc1|[Hc1|[Hc1|[Hc1|[Hc1|Hc1]]]]]]];
  destruct Hc2 as [Hc2|[Hc2|[Hc2|[Hc2|[Hc2|[Hc2|[Hc2|Hc2]]]]]]];
    rewrite Hc1, Hc2 in *; try lia;
    cbn in Hs1, Hs2 |- *; Z.div_mod_to_equations; lia.
Qed.

Lemma magnitude_neg (x : Z) : magnitude (- x) = magnitude x.
Proof.
  unfold magnitude.
  destruct (Z.ltb_spec (- x) 0), (Z.ltb_spec x 0); try lia;
    replace (- - x) with x by lia; try done.
  by replace x with 0 by lia.
Qed.

Lemma magnitude_mono (x y : Z) : 0 ≤ x → x ≤ y → magnitude x ≤ magnitude y.
Proof.
  intros Hx Hxy. unfold magnitude, CLIP, BIAS.
  destruct (Z.ltb_spec x 0), (Z.ltb_spec y 0); try lia.
  destruct (x >? 32635) eqn:H1, (y >? 32635) eqn:H2; lia.
Qed.

Lemma code_sign (e m : Z) :
  0 ≤ e ≤ 7 → 0 ≤ m ≤ 15 →
  code 0x80 e m = Z.lxor (code 0 e m) 0x80 ∧
  code 0 e m = Z.lxor (code 0x80 e m) 0x80.
Proof.
  intros He Hm.
  assert (e = 0 ∨ e = 1 ∨ e = 2 ∨ e = 3 ∨ e = 4 ∨ e = 5 ∨ e = 6 ∨ e = 7)
    as He' by lia.
  assert (m = 0 ∨ m = 1 ∨ m = 2 ∨ m = 3 ∨ m = 4 ∨ m = 5 ∨ m = 6 ∨ m = 7 ∨
          m = 8 ∨ m = 9 ∨ m = 10 ∨ m = 11 ∨ m = 12 ∨ m = 13 ∨ m = 14 ∨ m = 15)
    as Hm' by lia.
  destruct_or!; subst e m; split; reflexivity.
Qed.

End Symmetry.

(** Property X4.  The codec is symmetric about zero: for a non-zero
    sample, negating it flips the sign bit of the code and negates the
    decoded value. *)
Theorem codec_odd_symmetric (x : Z) :
  x ≠ 0 →
  encode_sample (- x) = Z.lxor (encode_sample x) 0x80 ∧
  decode_byte (encode_sample (- x)) = - decode_byte (encode_sample x).
Proof.
  intros Hx. split.
  - pose proof (magnitude_range x) as Hm.
    destruct (segment_mantissa (magnitude x) Hm) as (He & Hmant & _).
    destruct (code_sign _ _ He Hmant) as [H1 H2].
    unfold encode_sample. rewrite magnitude_neg.
    fold (code (if - x <? 0 then 128 else 0)
      (Z.log2 (magnitude x) - 7)
      (Z.land (Z.shiftr (magnitude x) (Z.log2 (magnitude x) - 7 + 3)) 15)).
    fold (code (if x <? 0 then 128 else 0)
      (Z.log2 (magnitude x) - 7)
      (Z.land (Z.shiftr (magnitude x) (Z.log2 (magnitude x) - 7 + 3)) 15)).
    destruct (Z.ltb_spec (- x) 0), (Z.ltb_spec x 0); try lia; done.
  - rewrite !roundtrip_value, magnitude_neg.
    destruct (Z.ltb_spec (- x) 0), (Z.ltb_spec x 0); lia.
Qed.

Lemma codec_odd_symmetric_witness :
  encode_sample (- 1000) = Z.lxor (encode_sample 1000) 0x80 ∧
  decode_byte (encode_sample (- 1000)) = - decode_byte (encode_sample 1000).
Proof. apply (codec_odd_symmetric 1000). lia. Defined.

(** Property X5.  The round trip through the codec preserves the order
    of samples: a louder sample never decodes below a quieter one. *)
Theorem codec_monotone (x y : Z) :
  x ≤ y → decode_byte (encode_sample x) ≤ decode_byte (encode_sample y).
Proof.
  intros Hxy. rewrite !roundtrip_value.
  pose proof (magnitude_range x) as Hmx. pose proof (magnitude_range y) as Hmy.
  pose proof (level_of_nonneg _ Hmx). pose proof (level_of_nonneg _ Hmy).
  destruct (Z.ltb_spec x 0), (Z.ltb_spec y 0); try lia.
  - assert (magnitude y ≤ magnitude x).
    { rewrite <- (magnitude_neg y), <- (magnitude_neg x).
      apply magnitude_mono; lia. }
    pose proof (level_of_mono (magnitude y) (magnitude x)). lia.
  - pose proof (magnitude_mono x y).
    pose proof (level_of_mono (magnitude x) (magnitude y)). lia.
Qed.

Lemma codec_monotone_witness :
  decode_byte (encode_sample (- 5)) ≤ decode_byte (encode_sample 700).
Proof. apply (codec_monotone (- 5) 700). lia. Defined.

(** Property X6.  Samples at or above the clip level 32635 all encode to
    0x80 and decode to 32124; their negatives encode to 0x00 and decode
    to -32124. *)
Theorem codec_saturates (x : Z) :
  32635 ≤ x →
  encode_sample x = 0x80 ∧ decode_byte (encode_sample x) = 32124 ∧
  encode_sample (- x) = 0x00 ∧ decode_byte (encode_sample (- x)) = - 32124.
Proof.
  intros Hx.
  assert (Hm : magnitude x = 32767).
  { unfold magnitude, CLIP, BIAS. destruct (Z.ltb_spec x 0); [lia|].
    destruct (x >? 32635) eqn:Hc; [done|].
    rewrite Z.gtb_ltb in Hc. apply Z.ltb_ge in Hc. lia. }
  assert (He : encode_sample x = 128).
  { unfold encode_sample. rewrite Hm.
    destruct (Z.ltb_spec x 0); [lia|reflexivity]. }
  assert (Hn : encode_sample (- x) = 0).
  { unfold encode_sample. rewrite magnitude_neg, Hm.
    destruct (Z.ltb_spec (- x) 0); [reflexivity|lia]. }
  rewrite He, Hn. repeat split; reflexivity.
Qed.

Lemma codec_saturates_witness :
  encode_sample 32767 = 0x80 ∧ decode_byte (encode_sample 32767) = 32124 ∧
  encode_sample (- 32767) = 0x00 ∧
  decode_byte (encode_sample (- 32767)) = - 32124.
Proof. apply (codec_saturates 32767). lia. Defined.

Section Ranges.

Lemma within_lookup (lo hi : Z) (samples : list Z) (i : nat) (x : Z) :
  within lo hi samples → samples !! i = Some x → lo ≤ x ≤ hi.
Proof. intros Hw Hx. by eapply (Forall_lookup_1 _ _ _ _ Hw Hx). Qed.

Lemma upsample3_within (samples : list Z) (lo hi : Z) :
  pcm_frame samples → samples ≠ [] →
  within lo hi samples → within lo hi (upsample3 samples).
Proof.
  intros Hf Hne Hw.
  destruct (upsample3_spec samples Hf Hne) as (Hlen & Hpair & Hlast).
  apply Forall_lookup_2. intros p y Hy.
  assert (Hp : (p < 3 * length samples)%nat)
    by (rewrite <- Hlen; by eapply lookup_lt_Some).
  set (i := (p `div` 3)%nat).
  assert (Hpi : (p = 3 * i ∨ p = 3 * i + 1 ∨ p = 3 * i + 2)%nat).
  { pose proof (Nat.div_mod_eq p 3). pose proof (Nat.mod_upper_bound p 3).
    unfold i. lia. }
  clearbody i.
  assert (Hi : (i < length samples)%nat) by lia.
  destruct (lookup_lt_is_Some_2 samples i Hi) as [a Ha].
  pose proof (within_lookup _ _ _ _ _ Hw Ha) as Hra.
  destruct (decide (S i < length samples)%nat) as [Hlt|Hge].
  - destruct (lookup_lt_is_Some_2 samples (S i) Hlt) as [b Hb].
    pose proof (within_lookup _ _ _ _ _ Hw Hb) as Hrb.
    destruct (Hpair i a b Ha Hb) as (H0 & H1 & H2).
    assert (lo ≤ (2 * a + b) `div` 3 ≤ hi)
      by (split; [apply Z.div_le_lower_bound|apply Z.div_le_upper_bound]; lia).
    assert (lo ≤ (a + 2 * b) `div` 3 ≤ hi)
      by (split; [apply Z.div_le_lower_bound|apply Z.div_le_upper_bound]; lia).
    destruct Hpi as [->|[->| ->]]; simplify_eq; lia.
  - assert (i = length samples - 1)%nat as Hi' by lia.
    rewrite Hi' in Ha. destruct (Hlast a Ha) as (H0 & H1 & H2).
    rewrite <- Hi' in H0, H1, H2.
    destruct Hpi as [->|[->| ->]]; simplify_eq; lia.
Qed.

Lemma downsample3_within (samples : list Z) (lo hi : Z) :
  pcm_frame samples →
  within lo hi samples → within lo hi (downsample3 samples).
Proof.
  intros Hf Hw. destruct (downsample3_spec samples Hf) as [Hlen Hinv].
  apply Forall_lookup_2. intros i y Hy.
  assert (Hi : (i < length samples `div` 3)%nat)
    by (rewrite <- Hlen; by eapply lookup_lt_Some).
  pose proof (Nat.div_mod_eq (length samples) 3) as Hdm.
  destruct (lookup_lt_is_Some_2 samples (3 * i)) as [a Ha]; [lia|].
  destruct (lookup_lt_is_Some_2 samples (3 * i + 1)) as [b Hb]; [lia|].
  destruct (lookup_lt_is_Some_2 samples (3 * i + 2)) as [c Hc]; [lia|].
  rewrite (Hinv i a b c Hi Ha Hb Hc) in Hy. simplify_eq.
  pose proof (within_lookup _ _ _ _ _ Hw Ha).
  pose proof (within_lookup _ _ _ _ _ Hw Hb).
  pose proof (within_lookup _ _ _ _ _ Hw Hc).
  split; [apply Z.div_le_lower_bound|apply Z.div_le_upper_bound]; lia.
Qed.

End Ranges.

(** Property X7.  The two fixed-ratio resamplers never overshoot: if
    every input sample lies in [lo, hi], so does every output sample of
    the 8000 to 24000 and of the 24000 to 8000 conversion, and the
    output is again a frame of 16-bit samples. *)
Theorem fixed_ratio_no_overshoot (samples : list Z) (lo hi : Z) :
  pcm_frame samples → within lo hi samples →
  (samples ≠ [] →
   ∃ up, resample samples 8000 24000 = Ok up ∧
         within lo hi up ∧ pcm_frame up) ∧
  (∃ down, resample samples 24000 8000 = Ok down ∧
           within lo hi down ∧ pcm_frame down).
Proof.
  intros Hf Hw. split.
  - intros Hne. exists (upsample3 samples). split; [reflexivity|].
    split; [by apply upsample3_within|].
    by apply (upsample3_within samples INT16_MIN INT16_MAX).
  - exists (downsample3 samples). split; [reflexivity|].
    split; [by apply downsample3_within|].
    by apply (downsample3_within samples INT16_MIN INT16_MAX).
Qed.

Lemma fixed_ratio_no_overshoot_witness :
  ∃ up, resample [100; -50; 20] 8000 24000 = Ok up ∧ within (-50) 100 up.
Proof.
  assert (Hf : pcm_frame [100; -50; 20]).
  { repeat constructor; unfold INT16_MIN, INT16_MAX; lia. }
  assert (Hw : within (-50) 100 [100; -50; 20]).
  { repeat constructor; lia. }
  destruct (proj1 (fixed_ratio_no_overshoot _ _ _ Hf Hw) ltac:(discriminate))
    as (up & Hup & Hwup & _).
  exists up. split; [exact Hup|exact Hwup].
Defined.

(** Property X8.  Resampling a non-empty frame from 8000 to 24000 Hz and
    back to 8000 Hz gives a frame of the same length; each sample of it
    lies between the original sample at that position and the next one,
    and the last sample is the original last sample. *)
Theorem upsample_then_downsample (samples : list Z) :
  pcm_frame samples → samples ≠ [] →
  ∃ back,
    rbind (resample samples 8000 24000)
          (λ up, resample up 24000 8000) = Ok back ∧
    length back = length samples ∧
    (∀ i a b, samples !! i = Some a → samples !! S i = Some b →
       ∃ c, back !! i = Some c ∧ Z.min a b ≤ c ≤ Z.max a b) ∧
    back !! (length samples - 1)%nat = samples !! (length samples - 1)%nat.
Proof.
  intros Hf Hne.
  destruct (upsample3_spec samples Hf Hne) as (Hlen & Hpair & Hlast).
  assert (Hfu : pcm_frame (upsample3 samples))
    by (by apply (upsample3_within samples INT16_MIN INT16_MAX)).
  destruct (downsample3_spec _ Hfu) as [Hdlen Hdinv].
  assert (Hn : (length (upsample3 samples) `div` 3 = length samples)%nat).
  { rewrite Hlen. rewrite Nat.mul_comm. by rewrite Nat.div_mul. }
  rewrite Hn in *.
  exists (downsample3 (upsample3 samples)). split; [reflexivity|].
  split; [exact Hdlen|]. split.
  - intros i a b Ha Hb.
    destruct (Hpair i a b Ha Hb) as (H0 & H1 & H2).
    assert (Hi : (i < length samples)%nat) by (by apply lookup_lt_Some in Ha).
    exists ((a + (2 * a + b) `div` 3 + (a + 2 * b) `div` 3) `div` 3).
    split; [by apply Hdinv|].
    assert (Z.min a b ≤ (2 * a + b) `div` 3 ≤ Z.max a b)
      by (split; [apply Z.div_le_lower_bound|apply Z.div_le_upper_bound]; lia).
    assert (Z.min a b ≤ (a + 2 * b) `div` 3 ≤ Z.max a b)
      by (split; [apply Z.div_le_lower_bound|apply Z.div_le_upper_bound]; lia).
    split; [apply Z.div_le_lower_bound|apply Z.div_le_upper_bound]; lia.
  - assert (0 < length samples)%nat by (destruct samples; [done|simpl; lia]).
    destruct (lookup_lt_is_Some_2 samples (length samples - 1)) as [s Hs]; [lia|].
    destruct (Hlast s Hs) as (H0 & H1 & H2).
    rewrite Hs.
    rewrite (Hdinv (length samples - 1)%nat s s s); [|lia|done..].
    f_equal. replace (s + s + s) with (s * 3) by lia. by rewrite Z.div_mul.
Qed.

Lemma upsample_then_downsample_witness :
  ∃ back,
    rbind (resample [300; -600; 90] 8000 24000)
          (λ up, resample up 24000 8000) = Ok back ∧
    length back = 3%nat ∧ back !! 2%nat = Some 90.
Proof.
  assert (Hf : pcm_frame [300; -600; 90]).
  { repeat constructor; unfold INT16_MIN, INT16_MAX; lia. }
  destruct (upsample_then_downsample _ Hf ltac:(discriminate))
    as (back & Hb & Hlen & _ & Hlast).
  exists back. split; [exact Hb|]. split; [exact Hlen|exact Hlast].
Defined.

Section Generic.


Lemma ratio_floor (n to : Z) (p : positive) :
  Qfloor (inject_Z n * (inject_Z to / inject_Z (Z.pos p)))%Q = (n * to) `div` Z.pos p.
Proof.
  unfold Qfloor, Qdiv, Qmult, Qinv, inject_Z. simpl. f_equal; lia.
Qed.


Lemma ratio_negative (n to : Z) (p : positive) :
  0 < n → to < 0 →
  Qfloor (inject_Z n * (inject_Z to / inject_Z (Z.pos p)))%Q < 0.
Proof.
  intros Hn Hto. rewrite ratio_floor.
  apply Z.div_lt_upper_bound; [lia|]. nia.
Qed.

End Generic.

(** Property X9.  The generic branch of [resample] on a non-empty frame:
    a source rate of 0 makes the output length infinite and the
    allocation raise a RangeError; a target rate of 0 gives an empty
    frame; a negative target rate with a positive source rate gives a
    negative length and a RangeError. *)
Theorem generic_rate_edges (samples : list Z) (fromRate toRate : Z) :
  samples ≠ [] →
  (toRate ≠ 0 → resample samples 0 toRate = Throw "RangeError") ∧
  (fromRate ≠ 0 → resample samples fromRate 0 = Ok []) ∧
  (0 < fromRate → toRate < 0 →
     resample samples fromRate toRate = Throw "RangeError").
Proof.
  intros Hne.
  assert (Hlen : 0 < Z.of_nat (length samples))
    by (destruct samples; [done|simpl; lia]).
  split; [|split].
  - intros Hto. unfold resample, resample_body, generic.
    destruct (Z.eqb_spec 0 toRate); [lia|]. simpl.
    destruct (Z.eqb_spec (Z.of_nat (length samples)) 0); [lia|done].
  - intros Hfrom. unfold resample, resample_body, generic.
    destruct (Z.eqb_spec fromRate 0); [lia|].
    replace ((fromRate =? 8000) && (0 =? 24000)) with false
      by (by rewrite andb_false_r).
    replace ((fromRate =? 24000) && (0 =? 8000)) with false
      by (by rewrite andb_false_r).
    assert (Qfloor (inject_Z (Z.of_nat (length samples)) *
                    (inject_Z 0 / inject_Z fromRate))%Q = 0) as ->.
    { unfold Qfloor, Qdiv, Qmult, inject_Z. simpl.
      rewrite Z.mul_0_r. apply Z.div_0_l. lia. }
    reflexivity.
  - intros Hfrom Hto. unfold resample, resample_body, generic.
    destruct (Z.eqb_spec fromRate toRate); [lia|].
    destruct (Z.eqb_spec toRate 24000); [lia|]. rewrite andb_false_r.
    destruct (Z.eqb_spec toRate 8000); [lia|]. rewrite andb_false_r.
    destruct (Z.eqb_spec fromRate 0); [lia|].
    destruct fromRate as [|p|p]; try lia.
    pose proof (ratio_negative (Z.of_nat (length samples)) toRate p Hlen Hto) as Hneg.
    apply Z.ltb_lt in Hneg. by rewrite Hneg.
Qed.

Lemma generic_rate_edges_witness :
  resample [1; 2] 0 8000 = Throw "RangeError" ∧
  resample [1; 2] 8000 0 = Ok [] ∧
  resample [1; 2] 8000 (-8000) = Throw "RangeError".
Proof.
  assert (Hne : [1; 2] ≠ @nil Z) by discriminate.
  destruct (generic_rate_edges [1; 2] 8000 (-8000) Hne) as (_ & H2 & H3).
  destruct (generic_rate_edges [1; 2] 8000 8000 Hne) as (H1 & _ & _).
  split; [apply H1; lia|]. split; [apply H2; lia|apply H3; lia].
Defined.

Section IntegerFactor.



End IntegerFactor.



Section Energy.

Lemma sumSquares_acc (acc : Z) (samples : list Z) :
  foldl (λ acc s, acc + s * s) acc samples = acc + sumSquares samples.
Proof.
  unfold sumSquares. revert acc.
  induction samples as [|x l IH]; intros acc; simpl; [lia|].
  rewrite (IH (acc + x * x)), (IH (0 + x * x)). lia.
Qed.

Lemma sumSquares_cons (x : Z) (samples : list Z) :
  sumSquares (x :: samples) = x * x + sumSquares samples.
Proof. unfold sumSquares at 1. simpl. apply sumSquares_acc. Qed.

Lemma sumSquares_nonneg (samples : list Z) : 0 ≤ sumSquares samples.
Proof.
  induction samples as [|x l IH]; [done|]. rewrite sumSquares_cons. nia.
Qed.

Lemma sumSquares_upper (t : Z) (samples : list Z) :
  0 ≤ t → Forall (λ s, Z.abs s ≤ t) samples →
  sumSquares samples ≤ t * t * Z.of_nat (length samples).
Proof.
  intros Ht. induction 1 as [|x l Hx _ IH]; [unfold sumSquares; simpl; lia|].
  rewrite sumSquares_cons.
  replace (Z.of_nat (length (x :: l))) with (Z.of_nat (length l) + 1)
    by (simpl length; lia).
  nia.
Qed.

Lemma sumSquares_lower (t : Z) (samples : list Z) :
  0 ≤ t → samples ≠ [] → Forall (λ s, t < Z.abs s) samples →
  t * t * Z.of_nat (length samples) < sumSquares samples.
Proof.
  intros Ht Hne Hall.
  assert (Hgen : ∀ l, Forall (λ s, t < Z.abs s) l →
            l = [] ∨ t * t * Z.of_nat (length l) < sumSquares l).
  { induction 1 as [|x l Hx _ IH]; [by left|]. right.
    rewrite sumSquares_cons.
    replace (Z.of_nat (length (x :: l))) with (Z.of_nat (length l) + 1)
      by (simpl length; lia).
    destruct IH as [->|IH]; [unfold sumSquares; simpl; nia|nia]. }
  by destruct (Hgen samples Hall).
Qed.

End Energy.

(** A frame that stays within the threshold does not exceed it. *)
Lemma rms_below (samples : list Z) (t : Z) :
  0 ≤ t → Forall (λ s, Z.abs s ≤ t) samples → rms_exceeds samples t = false.
Proof.
  intros Ht Hall. unfold rms_exceeds.
  destruct (Z.ltb_spec t 0); [lia|].
  destruct (Z.eqb_spec (Z.of_nat (length samples)) 0); [done|].
  pose proof (sumSquares_upper t samples Ht Hall).
  rewrite Z.gtb_ltb. apply Z.ltb_ge. lia.
Qed.

(** Property X11.  The energy test against a threshold [t >= 0]
    ([calculateRMS(frame) > t]): a frame whose samples all have
    magnitude at most [t], the empty frame included, does not exceed it;
    a non-empty frame whose samples all have magnitude above [t] does. *)
Theorem rms_threshold (samples : list Z) (t : Z) :
  0 ≤ t →
  (Forall (λ s, Z.abs s ≤ t) samples → rms_exceeds samples t = false) ∧
  (samples ≠ [] → Forall (λ s, t < Z.abs s) samples →
     rms_exceeds samples t = true).
Proof.
  intros Ht. unfold rms_exceeds.
  destruct (Z.ltb_spec t 0); [lia|]. split.
  - intros Hall. destruct (Z.eqb_spec (Z.of_nat (length samples)) 0); [done|].
    pose proof (sumSquares_upper t samples Ht Hall).
    rewrite Z.gtb_ltb. apply Z.ltb_ge. lia.
  - intros Hne Hall.
    destruct (Z.eqb_spec (Z.of_nat (length samples)) 0) as [Hz|_].
    + destruct samples; [done|simpl in Hz; lia].
    + pose proof (sumSquares_lower t samples Ht Hne Hall).
      rewrite Z.gtb_ltb. apply Z.ltb_lt. lia.
Qed.

Lemma rms_threshold_witness :
  rms_exceeds [5000; -5000; 3] 5000 = false ∧
  rms_exceeds [5001; -6000] 5000 = true.
Proof.
  destruct (rms_threshold [5000; -5000; 3] 5000 ltac:(lia)) as [H1 _].
  destruct (rms_threshold [5001; -6000] 5000 ltac:(lia)) as [_ H2].
  split.
  - apply H1. repeat constructor; lia.
  - apply H2; [discriminate|repeat constructor; lia].
Defined.

Section Queue.
Import LiveClient.

Lemma resolve_fresh (p : nat) (v : option GeminiResponse) (c : Client) :
  p ∉ (settled c).*1 →
  settled (resolve p v c) = settled c ++ [(p, v)] ∧
  pendingResponses (resolve p v c) = pendingResponses c ∧
  setupComplete (resolve p v c) = setupComplete c ∧
  ws (resolve p v c) = ws c ∧
  nextPromise (resolve p v c) = nextPromise c.
Proof.
  intros Hp. unfold resolve, is_settled.
  by rewrite bool_decide_eq_false_2 by done.
Qed.

Lemma resolve_frame (p : nat) (v : option GeminiResponse) (c : Client) :
  pendingResponses (resolve p v c) = pendingResponses c ∧
  setupComplete (resolve p v c) = setupComplete c ∧
  ws (resolve p v c) = ws c ∧
  nextPromise (resolve p v c) = nextPromise c.
Proof. unfold resolve. by destruct (is_settled p c). Qed.

Lemma onMessage_head (r : GeminiResponse) (c : Client) (p : nat) (rest : list nat) :
  setupComplete c = true → pendingResponses c = p :: rest → queue_ok c →
  settled (onMessage r c) = settled c ++ [(p, Some r)] ∧
  pendingResponses (onMessage r c) = rest ∧
  setupComplete (onMessage r c) = true ∧
  queue_ok (onMessage r c).
Proof.
  intros Hsetup Hq (Hnd & Hfresh & Hlt & Hplt).
  unfold onMessage. rewrite Hsetup, Hq. simpl.
  assert (Hp : p ∉ (settled (set_pending rest c)).*1).
  { simpl. apply Hfresh. rewrite Hq. apply elem_of_cons. by left. }
  destruct (resolve_fresh p (Some r) _ Hp) as (Hs & Hpend & Hset & _ & Hnext).
  rewrite Hs, Hpend, Hset. simpl.
  split; [done|]. split; [done|]. split; [done|].
  rewrite Hq in Hnd. apply NoDup_cons in Hnd as [Hnotin Hnd'].
  unfold queue_ok. rewrite Hs, Hpend, Hnext. simpl.
  split; [exact Hnd'|]. split; [|split].
  - intros q Hq'. rewrite fmap_app. simpl. intros Hin.
    apply elem_of_app in Hin as [Hin|Hin].
    + apply (Hfresh q); [|done]. rewrite Hq. apply elem_of_cons. by right.
    + apply list_elem_of_singleton in Hin. by subst q.
  - intros q. rewrite fmap_app. simpl. intros Hin.
    apply elem_of_app in Hin as [Hin|Hin]; [by apply Hlt|].
    apply list_elem_of_singleton in Hin. subst q.
    apply Hplt. rewrite Hq. apply elem_of_cons. by left.
  - intros q Hq'. apply Hplt. rewrite Hq. apply elem_of_cons. by right.
Qed.

End Queue.

(** Property X12.  Messages of the AI link are handed to the waiting
    [receive] calls in order: when at least as many calls are waiting as
    messages arrive, the i-th message resolves the i-th oldest waiting
    promise, and the calls not served stay in the queue in their order. *)
Theorem messages_in_order (c : LiveClient.Client) (msgs : list GeminiResponse) :
  LiveClient.setupComplete c = true → queue_ok c →
  (length msgs ≤ length (LiveClient.pendingResponses c))%nat →
  let c' := foldl (λ c r, LiveClient.onMessage r c) c msgs in
  LiveClient.settled c' =
    LiveClient.settled c ++
      zip (take (length msgs) (LiveClient.pendingResponses c)) (Some <$> msgs) ∧
  LiveClient.pendingResponses c' =
    drop (length msgs) (LiveClient.pendingResponses c).
Proof.
  revert c. induction msgs as [|r msgs IH]; intros c Hsetup Hok Hlen; simpl.
  - by rewrite app_nil_r.
  - destruct (LiveClient.pendingResponses c) as [|p rest] eqn:Hq;
      [simpl in Hlen; lia|].
    destruct (onMessage_head r c p rest Hsetup Hq Hok) as (Hs & Hp & Hset & Hok').
    simpl in Hlen.
    destruct (IH (LiveClient.onMessage r c) Hset Hok') as [IHs IHp];
      [rewrite Hp; lia|].
    rewrite IHs, IHp, Hs, Hp. simpl. by rewrite <- app_assoc.
Qed.

Section QueueMore.
Import LiveClient.

Lemma receive_connected (c : Client) :
  can_send c = true → queue_ok c →
  (receive c).1 = nextPromise c ∧
  pendingResponses (receive c).2 = pendingResponses c ++ [nextPromise c] ∧
  settled (receive c).2 = settled c ∧
  setupComplete (receive c).2 = true ∧
  ws (receive c).2 = ws c ∧
  queue_ok (receive c).2.
Proof.
  unfold can_send. intros [Hws Hset]%andb_prop (Hnd & Hfresh & Hlt & Hplt).
  unfold receive. simpl. rewrite Hws, Hset. simpl.
  repeat split; simpl.
  - apply NoDup_app. split; [done|]. split; [|apply NoDup_singleton].
    intros p Hp Hin. apply list_elem_of_singleton in Hin. subst p.
    apply Hplt in Hp. lia.
  - intros p Hp. apply elem_of_app in Hp as [Hp|Hp]; [by apply Hfresh|].
    apply list_elem_of_singleton in Hp. subst p.
    intros Hin. apply Hlt in Hin. lia.
  - intros p Hp. apply Hlt in Hp. lia.
  - intros p Hp. apply elem_of_app in Hp as [Hp|Hp]; [apply Hplt in Hp; lia|].
    apply list_elem_of_singleton in Hp. subst p. lia.
Qed.

Lemma resolve_settled (p : nat) (v : option GeminiResponse) (c : Client) :
  p ∈ (settled (resolve p v c)).*1.
Proof.
  unfold resolve, is_settled. case_bool_decide as Hp; [done|].
  simpl. rewrite fmap_app. apply elem_of_app. right.
  by apply list_elem_of_singleton.
Qed.

Lemma resolve_grows (p : nat) (c : Client) :
  ∃ extra, settled (resolve p None c) = settled c ++ extra ∧
           Forall (λ e, e.2 = None ∧ e.1 = p) extra.
Proof.
  unfold resolve. destruct (is_settled p c).
  - exists []. by rewrite app_nil_r.
  - exists [(p, None)]. split; [done|]. by repeat constructor.
Qed.

Lemma flush_settles (l : list nat) (c : Client) :
  let c' := foldl (λ c p, resolve p None c) c l in
  pendingResponses c' = pendingResponses c ∧
  setupComplete c' = setupComplete c ∧ ws c' = ws c ∧
  nextPromise c' = nextPromise c ∧
  (∃ extra, settled c' = settled c ++ extra ∧
            Forall (λ e, e.2 = None ∧ e.1 ∈ l) extra) ∧
  (∀ p, p ∈ l → p ∈ (settled c').*1).
Proof.
  revert c. induction l as [|q l IH]; intros c; simpl.
  - repeat split; try done.
    + exists []. by rewrite app_nil_r.
    + intros p Hp. by apply elem_of_nil in Hp.
  - destruct (IH (resolve q None c))
      as (Hp & Hs & Hw & Hn & (extra & He & Hall) & Hin).
    destruct (resolve_frame q None c) as (Hp' & Hs' & Hw' & Hn').
    destruct (resolve_grows q c) as (first & Hfirst & Hfall).
    rewrite Hp, Hs, Hw, Hn, Hp', Hs', Hw', Hn'.
    split; [done|]. split; [done|]. split; [done|]. split; [done|]. split.
    + exists (first ++ extra). split; [by rewrite He, Hfirst, <- app_assoc|].
      apply Forall_app. split.
      * eapply Forall_impl; [exact Hfall|]. simpl. intros e [? ->].
        split; [done|]. apply elem_of_cons. by left.
      * eapply Forall_impl; [exact Hall|]. simpl. intros e [? ?].
        split; [done|]. apply elem_of_cons. by right.
    + intros p Hpin. apply elem_of_cons in Hpin as [->|Hpin]; [|by apply Hin].
      rewrite He, fmap_app. apply elem_of_app. left. apply resolve_settled.
Qed.

End QueueMore.

(** Property X13.  A message that arrives on a connected client while no
    [receive] call is waiting is dropped: the client is unchanged, a
    later [receive] does not get it, and the next message resolves that
    later call instead. *)
Theorem unawaited_message_is_lost (c : LiveClient.Client)
    (r r' : GeminiResponse) :
  LiveClient.can_send c = true → queue_ok c →
  LiveClient.pendingResponses c = [] →
  LiveClient.onMessage r c = c ∧
  LiveClient.settled (LiveClient.receive (LiveClient.onMessage r c)).2
    = LiveClient.settled c ∧
  LiveClient.settled
    (LiveClient.onMessage r'
       (LiveClient.receive (LiveClient.onMessage r c)).2)
    = LiveClient.settled c ++ [(LiveClient.nextPromise c, Some r')].
Proof.
  intros Hcan Hok Hempty.
  assert (Hdrop : LiveClient.onMessage r c = c).
  { unfold LiveClient.onMessage. rewrite Hempty.
    by destruct (LiveClient.setupComplete c). }
  split; [exact Hdrop|]. rewrite Hdrop.
  destruct (receive_connected c Hcan Hok) as (Hp & Hpend & Hs & Hset & _ & Hok').
  split; [exact Hs|].
  rewrite Hempty in Hpend. simpl in Hpend.
  destruct (onMessage_head r' _ _ [] Hset Hpend Hok') as (Hs' & _).
  by rewrite Hs', Hs.
Qed.

(** Property X14.  [close] on a client with a socket resolves every
    waiting [receive] with null and nothing else, empties the queue and
    leaves the client unable to send; a second [close] changes nothing
    and a later [receive] does not queue. *)
Theorem close_flushes_waiters (c : LiveClient.Client) :
  is_Some (LiveClient.ws c) →
  let c' := LiveClient.close c in
  LiveClient.pendingResponses c' = [] ∧
  LiveClient.can_send c' = false ∧
  (∀ p, p ∈ LiveClient.pendingResponses c → p ∈ (LiveClient.settled c').*1) ∧
  (∃ extra, LiveClient.settled c' = LiveClient.settled c ++ extra ∧
            Forall (λ e, e.2 = None ∧ e.1 ∈ LiveClient.pendingResponses c) extra) ∧
  LiveClient.close c' = c' ∧
  LiveClient.pendingResponses (LiveClient.receive c').2 = [].
Proof.
  intros [rs Hws] c'. unfold c', LiveClient.close. rewrite Hws.
  destruct (flush_settles (LiveClient.pendingResponses c) c)
    as (_ & _ & _ & _ & Hextra & Hin).
  simpl. split; [done|]. split; [done|]. split; [exact Hin|].
  split; [exact Hextra|]. split; [done|].
  unfold LiveClient.receive, LiveClient.resolve. simpl.
  by destruct (LiveClient.is_settled _ _).
Qed.

Section LoneTimer.

(** One timer falls due and nothing else does. *)
Lemma lone_timer_fires (st : State) (s : CallSession) (ts : list Timer)
    (t : Timer) (d : Z) :
  session st = Some s → timers st = ts ++ [t] →
  0 ≤ d → due t = now st + d →
  Forall (λ u, now st + d < due u) ts →
  (∀ ms, 0 ≤ ms < d → elapse ms st = set_now (now st + ms) st) ∧
  endLog (elapse d st) = endLog st ++ [reason t] ∧
  ended (elapse d st) ∧
  trace (elapse d st) = trace st ++ closes st ∧
  session (elapse d st) = Some (with_isActive false s) ∧
  now (elapse d st) = now st + d.
Proof.
  intros Hs Hts Hd Hdue Hlater. split.
  { intros ms Hms. apply elapse_idle; [lia|]. rewrite Hts.
    apply Forall_app. split.
    - eapply Forall_impl; [exact Hlater|]. simpl. intros; lia.
    - repeat constructor. lia. }
  set (base := set_now (Z.max (now (clearTimeout (timer_id t) st)) (due t))
                 (clearTimeout (timer_id t) st)).
  assert (Hsb : session base = Some s) by exact Hs.
  assert (Hfire : elapse d st = set_now (now st + d) (endCall (reason t) base)).
  { assert (Hlen : length (timers st) = S (length ts))
      by (rewrite Hts, length_app; simpl; lia).
    assert (Hnext : next_due (now st + d) (timers st) = Some t)
      by (rewrite Hts; apply next_due_last; [done|lia]).
    assert (Hidle : next_due (now st + d) (timers (endCall (reason t) base)) = None).
    { apply next_due_none.
      rewrite (endCall_fields (reason t) base s Hsb). simpl.
      apply (Forall_without _ (maxDurationTimer st)).
      apply (Forall_without _ (silenceTimer st)).
      rewrite Hts. apply Forall_forall.
      intros u [Hid Hu]%list_elem_of_filter.
      apply elem_of_app in Hu as [Hu|Hu].
      + by apply (proj1 (Forall_forall _ _) Hlater).
      + apply list_elem_of_singleton in Hu. by subst u. }
    unfold elapse. rewrite Hlen. cbn [fire]. rewrite Hnext.
    change (run_timer t st) with (endCall (reason t) base).
    rewrite (fire_idle _ _ _ Hidle).
    f_equal. rewrite now_endCall. unfold base. simpl. lia. }
  rewrite Hfire.
  destruct (endCall_ends (reason t) base s Hsb) as [He Htr].
  rewrite (endCall_fields (reason t) base s Hsb) in *.
  split; [done|]. split.
  { destruct He as (s' & ? & ? & ? & ?). by exists s'. }
  split; [exact Htr|]. split; [done|done].
Qed.

End LoneTimer.

Section MediaState.

(** What an accepted media frame does to the handler, the trace
    apart. *)
Lemma handleMedia_state (st : State) (msg : TwilioStreamMessage)
    (m : MediaInfo) (s : CallSession) :
  session st = Some s → media msg = Some m → track m = inbound →
  ∃ ops,
    handleMedia msg st =
      set_trace (trace st ++ ops)
        (set_silenceTimer (Some (nextTimer st))
           (set_nextTimer (S (nextTimer st))
              (set_timers (without (silenceTimer st) (timers st) ++ [silence_timer st])
                 (set_session (Some (with_lastActivityTime (now st) s)) st)))).
Proof.
  intros Hs Hm Htrack. unfold handleMedia. rewrite Hm, Hs.
  rewrite decide_True by done.
  unfold handleMedia_try, bind, act, queryConnected, ret, lift, sendAudio,
    guarded_send, push.
  destruct st as [nw ts nt pn vi se sil mx reg g tw tr el]. simpl in *.
  destruct sil as [sil|]; simpl;
    destruct (rms_exceeds (ulaw2pcm (payload m)) BARGE_IN_THRESHOLD); simpl;
    destruct (isConnected g) eqn:Hc; simpl;
    rewrite ?(isConnected_guard g Hc); simpl;
    eexists; unfold set_trace; simpl; f_equal;
    rewrite <- ?app_assoc; try reflexivity;
    try (symmetry; apply app_nil_r).
Qed.

End MediaState.

(** Property X15.  After an inbound media frame on a session, if no
    other timer is due within the next 15 s, nothing happens before
    15000 ms have passed, and at 15000 ms the call is ended with reason
    silence_timeout. *)
Theorem silence_timeout_after_last_media (st : State)
    (msg : TwilioStreamMessage) (m : MediaInfo) (s : CallSession) :
  session st = Some s → media msg = Some m → track m = inbound →
  Forall (λ t, now st + SILENCE_TIMEOUT < due t)
         (without (silenceTimer st) (timers st)) →
  (∀ ms, 0 ≤ ms < SILENCE_TIMEOUT →
     elapse ms (handleMedia msg st)
       = set_now (now st + ms) (handleMedia msg st)) ∧
  endLog (elapse SILENCE_TIMEOUT (handleMedia msg st))
    = endLog st ++ ["silence_timeout"] ∧
  ended (elapse SILENCE_TIMEOUT (handleMedia msg st)) ∧
  now (elapse SILENCE_TIMEOUT (handleMedia msg st)) = now st + SILENCE_TIMEOUT.
Proof.
  intros Hs Hm Htrack Hlater.
  destruct (handleMedia_state st msg m s Hs Hm Htrack) as [ops Hst].
  destruct (lone_timer_fires (handleMedia msg st)
              (with_lastActivityTime (now st) s)
              (without (silenceTimer st) (timers st)) (silence_timer st)
              SILENCE_TIMEOUT)
    as (Hidle & Hlog & Hend & _ & _ & Hnow);
    try (by rewrite Hst); [unfold SILENCE_TIMEOUT; lia|].
  rewrite Hst in *. simpl in *.
  split; [exact Hidle|]. split; [exact Hlog|]. split; [exact Hend|exact Hnow].
Qed.

(** Property X16.  Each inbound media frame replaces the silence timer:
    if the handler holds the handle of every pending silence timer
    before the frame, then after it exactly one silence timer is
    pending, due 15000 ms after the frame, and the handler holds its
    handle. *)
Theorem media_rearms_silence_timer (st : State)
    (msg : TwilioStreamMessage) (m : MediaInfo) (s : CallSession) :
  session st = Some s → media msg = Some m → track m = inbound →
  silence_tracked st →
  filter (λ t, reason t = "silence_timeout") (timers (handleMedia msg st))
    = [silence_timer st] ∧
  silenceTimer (handleMedia msg st) = Some (timer_id (silence_timer st)) ∧
  silence_tracked (handleMedia msg st).
Proof.
  intros Hs Hm Htrack Hinv.
  destruct (handleMedia_state st msg m s Hs Hm Htrack) as [ops Hst].
  assert (Hold : filter (λ t, reason t = "silence_timeout")
                   (without (silenceTimer st) (timers st)) = []).
  { apply elem_of_nil_inv. intros t [Hr Ht]%list_elem_of_filter.
    destruct (silenceTimer st) as [h|] eqn:Hsil; simpl in Ht.
    - apply list_elem_of_filter in Ht as [Hid Ht].
      specialize (Hinv t Ht Hr). congruence.
    - specialize (Hinv t Ht Hr). congruence. }
  assert (Hnew : filter (λ t, reason t = "silence_timeout")
                   (timers (handleMedia msg st)) = [silence_timer st]).
  { rewrite Hst. simpl. rewrite filter_app, Hold. simpl.
    by rewrite filter_cons_True, filter_nil. }
  split; [exact Hnew|]. split; [by rewrite Hst|].
  intros t Ht Hr.
  assert (t ∈ [silence_timer st])
    by (rewrite <- Hnew; by apply list_elem_of_filter).
  apply list_elem_of_singleton in H. subst t. by rewrite Hst.
Qed.


Section Loop.

Variables (st : State) (s : CallSession).
Hypothesis Hsession : session st = Some s.
Hypothesis Hactive : isActive s = true.
Hypothesis Hlink : notConnected (geminiClient st) = false.

Lemma loop_runs (r : GeminiResponse) :
  receiveFromGemini r st =
    match on_response r st with
    | (Ok _, st') => st'
    | (Throw _, st') => endCall "error" st'
    end.
Proof. unfold receiveFromGemini. by rewrite Hsession, Hactive, Hlink. Qed.

Lemma end_call_requested (id : string) (args : gmap string JsVal) :
  receiveFromGemini
    (tool_call {| fc_id := id; fc_name := "end_call"; fc_args := Some args |}) st
  = set_nextTimer (S (nextTimer st))
      (set_timers (timers st ++ [ai_timer st])
         (push (GeminiSendToolResponse id "end_call" None (Some "Ending call..."))
               st)).
Proof.
  rewrite loop_runs.
  cbv [on_response forM on_functionCall sendToolResponse guarded_send
       bind lift act ret tool_call functionCalls turnComplete parts
       fc_name fc_args fc_id].
  cbn -[notConnected]. by rewrite Hlink.
Qed.

Lemma unknown_tool_requested (id name : string)
    (args : option (gmap string JsVal)) :
  name ≠ "end_call" →
  receiveFromGemini
    (tool_call {| fc_id := id; fc_name := name; fc_args := args |}) st
  = push (GeminiSendToolResponse id name None None) st.
Proof.
  intros Hname. rewrite loop_runs.
  cbv [on_response forM on_functionCall sendToolResponse guarded_send
       bind lift act ret tool_call functionCalls turnComplete parts
       fc_name fc_args fc_id executeTool].
  rewrite decide_False by done. cbn -[notConnected]. by rewrite Hlink.
Qed.

Lemma end_call_without_args (id : string) :
  receiveFromGemini
    (tool_call {| fc_id := id; fc_name := "end_call"; fc_args := None |}) st
  = endCall "error" st.
Proof. by rewrite loop_runs. Qed.

Lemma inline_audio (d : InlineData) :
  receiveFromGemini (inline_part d) st =
    if String.prefix "audio/pcm" (mimeType d)
    then push (WsSend (MediaEvent (streamSid s)
                 (pcm2ulaw (downsample3 (data d))))) st
    else st.
Proof.
  rewrite loop_runs.
  cbv [on_response forM on_part the_session bind lift act ret inline_part
       functionCalls turnComplete parts text inlineData].
  destruct (String.prefix "audio/pcm" (mimeType d)); [|done].
  cbn -[pcm2ulaw downsample3]. by rewrite Hsession.
Qed.

End Loop.

(** Property X18.  When the AI calls the end_call tool with an argument
    record, the handler answers with the tool response, leaves the
    session as it is, and, if no other timer is due within 3 s, ends the
    call exactly 3000 ms later with reason ai_requested. *)
Theorem ai_end_call_request (st : State) (s : CallSession) (id : string)
    (args : gmap string JsVal) :
  session st = Some s → isActive s = true →
  notConnected (geminiClient st) = false →
  Forall (λ t, now st + 3000 < due t) (timers st) →
  let st1 := receiveFromGemini
    (tool_call {| fc_id := id; fc_name := "end_call"; fc_args := Some args |}) st in
  trace st1 = trace st ++
    [GeminiSendToolResponse id "end_call" None (Some "Ending call...")] ∧
  session st1 = Some s ∧
  (∀ ms, 0 ≤ ms < 3000 → elapse ms st1 = set_now (now st + ms) st1) ∧
  endLog (elapse 3000 st1) = endLog st ++ ["ai_requested"] ∧
  ended (elapse 3000 st1).
Proof.
  intros Hs Hact Hlink Hlater st1.
  assert (Hst1 : st1 = set_nextTimer (S (nextTimer st))
      (set_timers (timers st ++ [ai_timer st])
         (push (GeminiSendToolResponse id "end_call" None (Some "Ending call..."))
               st)))
    by (by apply end_call_requested with s).
  destruct (lone_timer_fires st1 s (timers st) (ai_timer st) 3000)
    as (Hidle & Hlog & Hend & _);
    try (by rewrite Hst1); [lia|].
  rewrite Hst1 in *. simpl in *.
  split; [done|]. split; [done|]. split; [exact Hidle|]. split; [exact Hlog|exact Hend].
Qed.

(** Property X19.  A call of a tool other than end_call is answered with
    a tool response that carries neither success nor message; nothing
    else changes: no timer is armed and the call goes on. *)
Theorem unknown_tool_reply (st : State) (s : CallSession) (id name : string)
    (args : option (gmap string JsVal)) :
  session st = Some s → isActive s = true →
  notConnected (geminiClient st) = false →
  name ≠ "end_call" →
  receiveFromGemini
    (tool_call {| fc_id := id; fc_name := name; fc_args := args |}) st
  = push (GeminiSendToolResponse id name None None) st.
Proof. intros Hs Hact Hlink Hname. by apply unknown_tool_requested with s. Qed.

(** Property X20.  An end_call tool call without an argument record
    makes [executeTool] throw; the loop catches it and ends the call at
    once with reason error, without answering the tool call. *)
Theorem end_call_without_args_ends_call (st : State) (s : CallSession)
    (id : string) :
  session st = Some s → isActive s = true →
  notConnected (geminiClient st) = false →
  let st1 := receiveFromGemini
    (tool_call {| fc_id := id; fc_name := "end_call"; fc_args := None |}) st in
  endLog st1 = endLog st ++ ["error"] ∧
  ended st1 ∧
  trace st1 = trace st ++ closes st ∧
  timers st1 = without (maxDurationTimer st) (without (silenceTimer st) (timers st)).
Proof.
  intros Hs Hact Hlink st1.
  assert (Hst1 : st1 = endCall "error" st)
    by (by apply end_call_without_args with s).
  destruct (endCall_ends "error" st s Hs) as [He Htr].
  rewrite Hst1. split; [by rewrite (endCall_fields _ _ _ Hs)|].
  split; [exact He|]. split; [exact Htr|]. by rewrite (endCall_fields _ _ _ Hs).
Qed.

(** Property X21.  A response part with inline data is forwarded to
    telephony only when its MIME type starts with audio/pcm: then
    exactly one media event is sent on the session's stream, holding one
    mu-law byte (0..255) per three input samples; any other inline data
    leaves the handler unchanged. *)
Theorem audio_part_forwarded (st : State) (s : CallSession) (d : InlineData) :
  session st = Some s → isActive s = true →
  notConnected (geminiClient st) = false →
  pcm_frame (data d) →
  let st1 := receiveFromGemini (inline_part d) st in
  (String.prefix "audio/pcm" (mimeType d) = false → st1 = st) ∧
  (String.prefix "audio/pcm" (mimeType d) = true →
     ∃ ulaw, st1 = push (WsSend (MediaEvent (streamSid s) ulaw)) st ∧
       length ulaw = (length (data d) `div` 3)%nat ∧
       Forall is_byte ulaw).
Proof.
  intros Hs Hact Hlink Hf st1.
  assert (Hst1 : st1 = if String.prefix "audio/pcm" (mimeType d)
    then push (WsSend (MediaEvent (streamSid s)
                 (pcm2ulaw (downsample3 (data d))))) st else st)
    by (by apply inline_audio).
  split; intros Hp; rewrite Hp in Hst1; [exact Hst1|].
  exists (pcm2ulaw (downsample3 (data d))). split; [exact Hst1|].
  destruct (downsample3_spec (data d) Hf) as [Hlen _].
  unfold pcm2ulaw. rewrite length_map. split; [exact Hlen|].
  apply Forall_forall. intros b Hb.
  apply list_elem_of_fmap in Hb as (x & -> & _). apply encode_is_byte.
Qed.

Section Final.

Lemma ended_client (st : State) :
  ended st → g_ws (geminiClient st) = None ∧ twilioWs st ≠ OPEN.
Proof.
  intros (s & _ & _ & _ & Hc). unfold closes in Hc.
  destruct (g_ws (geminiClient st)); [done|].
  split; [done|]. intros Hopen. by rewrite Hopen in Hc.
Qed.

Lemma ended_frame (st st' : State) :
  ended st →
  option_map callSid (session st') = option_map callSid (session st) →
  option_map isActive (session st') = option_map isActive (session st) →
  activeSessions st' = activeSessions st →
  geminiClient st' = geminiClient st →
  twilioWs st' ≠ OPEN →
  ended st'.
Proof.
  intros He Hsid Hact Hreg Hg Htw.
  destruct (ended_client st He) as [Hws _].
  destruct He as (s & Hs & Hina & Hnotin & Hc).
  rewrite Hs in Hsid, Hact.
  destruct (session st') as [s'|] eqn:Hs'; [|done].
  simpl in *. exists s'. split; [done|]. split; [congruence|].
  split; [rewrite Hreg; congruence|].
  unfold closes. rewrite Hg, Hws. simpl.
  by rewrite bool_decide_eq_false_2.
Qed.

Lemma cleared_frame (st : State) :
  let st' := clearIfSet (maxDurationTimer (clearIfSet (silenceTimer st) st))
               (clearIfSet (silenceTimer st) st) in
  session st' = session st ∧ activeSessions st' = activeSessions st ∧
  geminiClient st' = geminiClient st ∧ twilioWs st' = twilioWs st ∧
  trace st' = trace st.
Proof.
  destruct st as [nw ts nt pn vi se sil mx reg g tw tr el].
  by destruct sil, mx.
Qed.

Lemma step_when_ended (st : State) (e : Event) :
  ended st → not_start e →
  ended (step st e) ∧
  ∃ ops, trace (step st e) = trace st ++ ops ∧ Forall harmless ops.
Proof.
  intros He Hns.
  pose proof (ended_client st He) as [Hws Htw].
  destruct e as [m hs| | |r|ms]; simpl.
  - simpl in Hns. destruct (event m); [done| |].
    + (* media *)
      unfold handleMedia.
      destruct (media m) as [mi|] eqn:Hm;
        [|split; [exact He|exists []; by rewrite app_nil_r]].
      destruct He as (s & Hs & Hina & Hnotin & Hc). rewrite Hs.
      assert (He : ended st) by (by exists s).
      destruct (decide (track mi = inbound)) as [Htr|];
        [|split; [exact He|exists []; by rewrite app_nil_r]].
      destruct (handleMedia_state st m mi s Hs Hm Htr) as [ops Hst].
      unfold handleMedia in Hst. rewrite Hm, Hs, decide_True in Hst by done.
      split.
      * apply (ended_frame st);
          [exact He|by rewrite Hst, Hs|by rewrite Hst, Hs|by rewrite Hst
          |by rewrite Hst|by rewrite Hst].
      * assert (Hnc : isConnected (geminiClient st) = false)
          by (unfold isConnected; by rewrite Hws).
        unfold handleMedia_try, bind, act, queryConnected, ret. simpl.
        assert (Hg : ∀ t, geminiClient (clearIfSet t
          (set_session (Some (with_lastActivityTime (now st) s)) st))
            = geminiClient st) by (by intros [h|]).
        assert (Ht : ∀ t, trace (clearIfSet t
          (set_session (Some (with_lastActivityTime (now st) s)) st))
            = trace st) by (by intros [h|]).
        destruct (rms_exceeds _ _); simpl; rewrite Hg, Hnc; simpl; rewrite Ht.
        -- eexists. rewrite <- app_assoc. split; [reflexivity|].
           by repeat constructor.
        -- eexists. split; [reflexivity|]. by repeat constructor.
    + (* stop *)
      destruct (endCall_when_ended "completed" st He) as [He' Htr].
      split; [exact He'|]. exists []. by rewrite app_nil_r.
  - (* socket close *)
    destruct He as (s & Hs & Hina & Hnotin & Hc).
    assert (He : ended st) by (by exists s).
    unfold cleanup. cbn [session set_twilioWs]. rewrite Hs, Hina.
    destruct (cleared_frame (set_twilioWs CLOSED st))
      as (H1 & H2 & H3 & H4 & H5).
    split.
    + apply (ended_frame st);
        [exact He|by rewrite H1|by rewrite H1|by rewrite H2|by rewrite H3
        |by rewrite H4].
    + exists []. by rewrite app_nil_r, H5.
  - (* socket error *)
    destruct He as (s & Hs & Hina & Hnotin & Hc).
    assert (He : ended st) by (by exists s).
    unfold cleanup. rewrite Hs, Hina.
    destruct (cleared_frame st) as (H1 & H2 & H3 & H4 & H5).
    split.
    + apply (ended_frame st);
        [exact He|by rewrite H1|by rewrite H1|by rewrite H2|by rewrite H3
        |by rewrite H4].
    + exists []. by rewrite app_nil_r, H5.
  - (* response *)
    destruct He as (s & Hs & Hina & Hnotin & Hc).
    unfold receiveFromGemini. rewrite Hs, Hina. simpl.
    split; [by exists s|]. exists []. by rewrite app_nil_r.
  - (* time *)
    unfold elapse.
    destruct (fire_when_ended (length (timers st)) (now st + ms) st He)
      as [He' Htr].
    split.
    + destruct He' as (s' & ? & ? & ? & ?). by exists s'.
    + exists []. rewrite app_nil_r. split; [exact Htr|done].
Qed.

End Final.

(** Property X22.  Once a call has ended it stays ended, whatever media,
    stop, socket, AI or timer events follow (a new start event apart):
    the sockets are not closed again and nothing is sent to the AI link;
    the trace only gains clear events and connection checks that answer
    false. *)
Theorem ended_is_final (st : State) (es : list Event) :
  ended st → Forall not_start es →
  ended (run es st) ∧
  ∃ ops, trace (run es st) = trace st ++ ops ∧ Forall harmless ops.
Proof.
  revert st. induction es as [|e es IH]; intros st He Hall; simpl.
  - split; [done|]. exists []. by rewrite app_nil_r.
  - apply Forall_cons in Hall as [Hns Hall].
    destruct (step_when_ended st e He Hns) as (He' & ops & Htr & Hops).
    destruct (IH (step st e) He' Hall) as (He'' & ops' & Htr' & Hops').
    split; [exact He''|]. exists (ops ++ ops').
    split; [by rewrite Htr', Htr, <- app_assoc|by apply Forall_app].
Qed.

Section LoopText.


End LoopText.


(** Property X24.  When the telephony socket closes during an active
    session, the call is ended with reason disconnected: the AI link is
    closed, no close is sent on the telephony socket (it is already
    closed), both timers are cleared, and a second close event ends
    nothing more. *)
Theorem socket_close_ends_call (st : State) (s : CallSession) :
  session st = Some s → isActive s = true →
  let st1 := step st SocketClose in
  endLog st1 = endLog st ++ ["disconnected"] ∧
  ended st1 ∧
  twilioWs st1 = CLOSED ∧
  trace st1 = trace st ++
    match g_ws (geminiClient st) with
    | Some _ => [GeminiSocketClose]
    | None => []
    end ∧
  timers st1 = without (maxDurationTimer st) (without (silenceTimer st) (timers st)) ∧
  endLog (step st1 SocketClose) = endLog st1.
Proof.
  intros Hs Hact st1.
  set (st0 := set_twilioWs CLOSED st).
  assert (Hs0 : session st0 = Some s) by exact Hs.
  set (E := endCall "disconnected" st0).
  assert (Hst1 : st1 = clearIfSet (maxDurationTimer (clearIfSet (silenceTimer E) E))
                         (clearIfSet (silenceTimer E) E)).
  { unfold st1. simpl. unfold cleanup. cbn [session set_twilioWs].
    by rewrite Hs, Hact. }
  pose proof (endCall_fields "disconnected" st0 s Hs0) as Hf. fold E in Hf.
  destruct (endCall_ends "disconnected" st0 s Hs0) as [He Htr]. fold E in He, Htr.
  destruct (cleared_frame E) as (H1 & H2 & H3 & H4 & H5).
  assert (Hended : ended st1).
  { rewrite Hst1. destruct (ended_client E He) as [_ Hno].
    apply (ended_frame E); [exact He|by rewrite H1|by rewrite H1|exact H2
                           |exact H3|by rewrite H4]. }
  assert (Hlog : endLog st1 = endLog st ++ ["disconnected"]).
  { rewrite Hst1.
    assert (Hl : ∀ h x, endLog (clearIfSet h x) = endLog x) by (by intros [h|]).
    rewrite !Hl. by rewrite Hf. }
  split; [exact Hlog|]. split; [exact Hended|].
  split; [rewrite Hst1, H4; by rewrite Hf|].
  split.
  { rewrite Hst1, H5, Htr. unfold closes. simpl. by rewrite app_nil_r. }
  split.
  { rewrite Hst1.
    assert (Ht : ∀ h x, timers (clearIfSet h x) = without h (timers x))
      by (by intros [h|]).
    assert (Hsm : ∀ h x, maxDurationTimer (clearIfSet h x) = maxDurationTimer x)
      by (by intros [h|]).
    rewrite !Ht, Hsm. rewrite Hf. simpl. apply without_pair_twice. }
  destruct Hended as (s' & Hs' & Hina & _).
  simpl. unfold cleanup. cbn [session set_twilioWs]. rewrite Hs', Hina.
  assert (Hl : ∀ h x, endLog (clearIfSet h x) = endLog x) by (by intros [h|]).
  by rewrite !Hl.
Qed.

(** Property X25.  The tools declared to the AI and the tools
    [executeTool] dispatches are the same: a declared tool name returns
    its action and echoes each required parameter from the arguments; an
    undeclared name returns the unknown-tool error and no action. *)
Theorem declared_tools_are_dispatched (toolName : string)
    (args : gmap string JsVal) :
  (toolName ∈ ToolDeclarations.name <$> ToolDeclarations.getToolsForGemini →
     ∃ res, executeTool toolName (Some args) = Ok res ∧
            action res = Some toolName ∧ extra res !! "error" = None ∧
            ∀ p, p ∈ ToolDeclarations.required <$> ToolDeclarations.getToolsForGemini →
                 ∀ k, k ∈ p → extra res !! k = Some (default JUndefined (args !! k))) ∧
  (toolName ∉ ToolDeclarations.name <$> ToolDeclarations.getToolsForGemini →
     ∃ res, executeTool toolName (Some args) = Ok res ∧
            action res = None ∧ is_Some (extra res !! "error")).
Proof.
  split.
  - intros Hin. apply list_elem_of_singleton in Hin. subst toolName.
    eexists. split; [reflexivity|]. simpl. split; [done|]. split; [done|].
    intros p Hp k Hk. apply list_elem_of_singleton in Hp. subst p.
    apply list_elem_of_singleton in Hk. subst k. apply lookup_singleton_eq.
  - intros Hnotin.
    assert (Hne : toolName ≠ "end_call").
    { intros ->. apply Hnotin. by apply list_elem_of_singleton. }
    unfold executeTool. rewrite decide_False by done.
    eexists. split; [reflexivity|]. simpl. split; [done|].
    rewrite lookup_singleton_eq. by eexists.
Qed.

Lemma declared_tools_are_dispatched_witness :
  (∃ res, executeTool "end_call" (Some {[ "reason" := JStr "completed" ]}) = Ok res ∧
          action res = Some "end_call") ∧
  (∃ res, executeTool "hang_up" (Some ∅) = Ok res ∧ action res = None).
Proof.
  split.
  - destruct (proj1 (declared_tools_are_dispatched "end_call"
                       {[ "reason" := JStr "completed" ]}))
      as (res & Hres & Hact & _).
    + apply list_elem_of_singleton. reflexivity.
    + exists res. split; [exact Hres|exact Hact].
  - destruct (proj2 (declared_tools_are_dispatched "hang_up" ∅))
      as (res & Hres & Hact & _).
    + intros Hin. apply list_elem_of_singleton in Hin. discriminate Hin.
    + exists res. split; [exact Hres|exact Hact].
Defined.

Section Start.

Lemma handleStart_success (st : State) (msg : TwilioStreamMessage)
    (info : StartInfo) :
  start msg = Some info →
  let st1 := handleStart true msg st in
  (∃ s, session st1 = Some s ∧ callSid s = start_callSid info ∧
        streamSid s = start_streamSid info ∧
        isActive s = true ∧ aiTurnCount s = 0 ∧ conversationLog s = []) ∧
  timers st1 = timers st ++ [max_duration_timer st] ∧
  maxDurationTimer st1 = Some (nextTimer st) ∧
  silenceTimer st1 = silenceTimer st ∧
  activeSessions st1 = {[ start_callSid info ]} ∪ activeSessions st ∧
  isConnected (geminiClient st1) = true ∧
  twilioWs st1 = twilioWs st ∧
  endLog st1 = endLog st ∧ now st1 = now st ∧
  trace st1 = trace st ++ [GeminiOpen (voiceIdVar st1);
                           GeminiSendMessage openingMessage].
Proof.
  intros Hstart. unfold handleStart. rewrite Hstart.
  destruct st as [nw ts nt pn vi se sil mx reg g tw tr el].
  destruct (customParameters info) as [cp|]; simpl;
    rewrite <- ?app_assoc; (split; [eexists; by repeat split|]);
    by repeat split.
Qed.

End Start.

(** Property X26.  After a start event whose handshake succeeds the call
    is registered, and if no other timer is due within 5 minutes,
    nothing happens before 300000 ms have passed and at 300000 ms the
    call is ended with reason max_duration and removed from the
    registry. *)
Theorem max_duration_ends_call (st : State) (msg : TwilioStreamMessage)
    (info : StartInfo) :
  start msg = Some info →
  Forall (λ u, now st + MAX_CALL_DURATION < due u) (timers st) →
  let st1 := handleStart true msg st in
  (start_callSid info ∈ activeSessions st1) ∧
  (∀ ms, 0 ≤ ms < MAX_CALL_DURATION →
     elapse ms st1 = set_now (now st + ms) st1) ∧
  endLog (elapse MAX_CALL_DURATION st1) = endLog st ++ ["max_duration"] ∧
  ended (elapse MAX_CALL_DURATION st1) ∧
  (start_callSid info ∉ activeSessions (elapse MAX_CALL_DURATION st1)).
Proof.
  intros Hstart Hlater st1.
  destruct (handleStart_success st msg info Hstart)
    as ((s & Hs & Hsid & _) & Htimers & _ & _ & Hreg & _ & _ & Hlog & Hnow & _).
  fold st1 in Hs, Htimers, Hreg, Hlog, Hnow.
  destruct (lone_timer_fires st1 s (timers st) (max_duration_timer st)
              MAX_CALL_DURATION Hs Htimers)
    as (Hidle & Hlog' & Hend & _ & Hs' & _).
  { unfold MAX_CALL_DURATION. lia. }
  { rewrite Hnow. reflexivity. }
  { by rewrite Hnow. }
  split; [rewrite Hreg; apply elem_of_union; left; by apply elem_of_singleton|].
  split; [intros ms Hms; rewrite <- Hnow; by apply Hidle|].
  split; [by rewrite Hlog', Hlog|]. split; [exact Hend|].
  destruct Hend as (s' & Hs'' & _ & Hnotin & _).
  rewrite Hs' in Hs''. injection Hs'' as <-. by rewrite <- Hsid.
Qed.

(** Property X27.  An inbound media frame whose decoded samples all have
    magnitude at most the barge-in threshold sends no clear event: the
    handler only checks the AI link and, if it is ready, forwards the
    upsampled audio. *)
Theorem quiet_frame_sends_no_clear (st : State) (msg : TwilioStreamMessage)
    (m : MediaInfo) (s : CallSession) :
  session st = Some s → media msg = Some m → track m = inbound →
  Forall (λ y, Z.abs y ≤ BARGE_IN_THRESHOLD) (ulaw2pcm (payload m)) →
  let ready := isConnected (geminiClient st) in
  trace (handleMedia msg st) =
    trace st ++ [GeminiIsConnected ready] ++
      (if ready
       then [GeminiSendAudio (upsample3 (ulaw2pcm (payload m)))] else []) ∧
  clears (trace (handleMedia msg st)) = clears (trace st).
Proof.
  intros Hs Hm Htrack Hquiet ready.
  assert (Hrms : rms_exceeds (ulaw2pcm (payload m)) BARGE_IN_THRESHOLD = false).
  { apply rms_below; [unfold BARGE_IN_THRESHOLD; lia|exact Hquiet]. }
  assert (Htr : trace (handleMedia msg st) =
    trace st ++ [GeminiIsConnected ready] ++
      (if ready
       then [GeminiSendAudio (upsample3 (ulaw2pcm (payload m)))] else [])).
  { unfold handleMedia. rewrite Hm, Hs, decide_True by done.
    unfold handleMedia_try, bind, act, queryConnected, ret, lift. simpl.
    rewrite Hrms. simpl.
    assert (Hg : ∀ t, geminiClient (clearIfSet t
        (set_session (Some (with_lastActivityTime (now st) s)) st)) = geminiClient st)
      by (by intros [h|]).
    assert (Ht : ∀ t, trace (clearIfSet t
        (set_session (Some (with_lastActivityTime (now st) s)) st)) = trace st)
      by (by intros [h|]).
    rewrite Hg. fold ready.
    destruct ready eqn:Hc; simpl.
    - unfold sendAudio, guarded_send. simpl. rewrite Hg.
      rewrite (isConnected_guard _ Hc). simpl. rewrite Ht.
      by rewrite <- !app_assoc.
    - by rewrite Ht. }
  split; [exact Htr|]. rewrite Htr, clears_app.
  assert (clears ([GeminiIsConnected ready] ++
            (if ready
             then [GeminiSendAudio (upsample3 (ulaw2pcm (payload m)))]
             else [])) = 0%nat) as -> by (by destruct ready).
  lia.
Qed.

Section Tame.

Lemma normal_closes_app (l k : list Op) :
  normal_closes (l ++ k) = (normal_closes l + normal_closes k)%nat.
Proof. unfold normal_closes. by rewrite filter_app, length_app. Qed.

Lemma quiet_refl (st : State) : quiet st st.
Proof. split; [done|]. exists []. by rewrite app_nil_r. Qed.

Lemma quiet_trans (a b c : State) : quiet a b → quiet b c → quiet a c.
Proof.
  intros [Hw (ops & Ht & Hn)] [Hw' (ops' & Ht' & Hn')].
  split; [congruence|]. exists (ops ++ ops').
  split; [by rewrite Ht', Ht, <- app_assoc|].
  rewrite normal_closes_app. lia.
Qed.

Lemma quiet_tame (st st' : State) : quiet st st' → tame st st'.
Proof.
  intros [Hw (ops & Ht & Hn)]. split; [congruence|].
  exists ops. split; [done|]. split; [|done]. rewrite Hn. lia.
Qed.

Lemma tame_refl (st : State) : tame st st.
Proof. apply quiet_tame, quiet_refl. Qed.

Lemma tame_trans (a b c : State) : tame a b → tame b c → tame a c.
Proof.
  intros [Ho (ops & Ht & Hb & Hz)] [Ho' (ops' & Ht' & Hb' & Hz')].
  split; [tauto|]. exists (ops ++ ops').
  split; [by rewrite Ht', Ht, <- app_assoc|].
  rewrite normal_closes_app.
  destruct (decide (twilioWs b = OPEN)) as [Hbo|Hbo].
  - rewrite (Hz Hbo). rewrite bool_decide_eq_true_2 in Hb' by done.
    rewrite (bool_decide_eq_true_2 _ (Ho Hbo)).
    split; [lia|]. intros Hc. rewrite (Hz' Hc). lia.
  - rewrite bool_decide_eq_false_2 in Hb' by done.
    split; [lia|]. intros Hc. by specialize (Ho' Hc).
Qed.

Lemma closed_once_tame (st st' : State) :
  closed_once st → tame st st' → closed_once st'.
Proof.
  intros [H1 H0] [Ho (ops & Ht & Hb & Hz)]. unfold closed_once.
  rewrite Ht, normal_closes_app.
  destruct (decide (twilioWs st = OPEN)) as [Hopen|Hno].
  - rewrite (H0 Hopen). rewrite bool_decide_eq_true_2 in Hb by done.
    split; [lia|]. intros Hc. rewrite (Hz Hc). lia.
  - rewrite bool_decide_eq_false_2 in Hb by done.
    split; [lia|]. intros Hc. by specialize (Ho Hc).
Qed.

(** The pieces of the handler. *)

Lemma normal_closes_other (o : Op) :
  is_normal_close o = false → normal_closes [o] = 0%nat.
Proof.
  intros Ho. unfold normal_closes. rewrite filter_cons_False; [done|].
  rewrite Ho. intros [].
Qed.

Lemma quiet_push (o : Op) (st : State) :
  is_normal_close o = false → quiet st (push o st).
Proof.
  intros Ho. split; [done|]. exists [o]. split; [done|].
  by apply normal_closes_other.
Qed.

Lemma quiet_same (st st' : State) :
  twilioWs st' = twilioWs st → trace st' = trace st → quiet st st'.
Proof. intros Hw Ht. split; [done|]. exists []. by rewrite app_nil_r. Qed.

Lemma quiet_clearIfSet (h : option nat) (st : State) : quiet st (clearIfSet h st).
Proof. by destruct h; apply quiet_same. Qed.

Lemma tame_ws_close_error (why : string) (st : State) :
  tame st (ws_close 1011 why st).
Proof.
  unfold ws_close. cbn [twilioWs push set_trace].
  destruct (decide (twilioWs st = OPEN)) as [Hopen|Hno].
  - rewrite bool_decide_eq_true_2 by done.
    split; [done|]. exists [WsClose 1011 why].
    split; [done|]. split; [|done].
    rewrite normal_closes_other by done. lia.
  - rewrite bool_decide_eq_false_2 by done.
    split; [done|]. exists [WsClose 1011 why].
    split; [done|]. split; [|done].
    rewrite normal_closes_other by done. lia.
Qed.

Lemma normal_closes_closes (st : State) :
  normal_closes (closes st) =
  if bool_decide (twilioWs st = OPEN) then 1%nat else 0%nat.
Proof.
  unfold closes. rewrite normal_closes_app.
  by destruct (g_ws (geminiClient st)), (bool_decide (twilioWs st = OPEN)).
Qed.

Lemma tame_endCall (why : string) (st : State) : tame st (endCall why st).
Proof.
  destruct (session st) as [s|] eqn:Hs;
    [|rewrite endCall_no_session by done; apply tame_refl].
  rewrite (endCall_fields why st s Hs).
  split; [simpl; intros H; by apply closing_not_open in H|].
  exists (closes st). split; [done|]. simpl.
  rewrite normal_closes_closes. split; [lia|].
  intros H. by apply closing_not_open in H.
Qed.

(** Computations in [M]. *)

Lemma quietM_ret {A} (a : A) : quietM (ret a).
Proof. intros st. apply quiet_refl. Qed.

Lemma quietM_lift {A} (r : result A) : quietM (lift r).
Proof. intros st. apply quiet_refl. Qed.

Lemma quietM_act (f : State → State) :
  (∀ st, quiet st (f st)) → quietM (act f).
Proof. intros Hf st. apply Hf. Qed.

Lemma quietM_bind {A B} (m : M A) (k : A → M B) :
  quietM m → (∀ a, quietM (k a)) → quietM (bind m k).
Proof.
  intros Hm Hk st. unfold bind. specialize (Hm st).
  destruct (m st) as [[a|e] st1]; [|done].
  eapply quiet_trans; [exact Hm|apply Hk].
Qed.

Lemma quietM_forM {A} (l : list A) (f : A → M unit) :
  (∀ a, quietM (f a)) → quietM (forM l f).
Proof.
  intros Hf. induction l as [|a l IH]; [apply quietM_ret|].
  apply quietM_bind; [apply Hf|done].
Qed.

Lemma quietM_guarded_send (o : Op) :
  is_normal_close o = false → quietM (guarded_send o).
Proof.
  intros Ho st. unfold guarded_send.
  destruct (notConnected (geminiClient st)); [apply quiet_refl|].
  by apply quiet_push.
Qed.

Lemma quietM_queryConnected : quietM queryConnected.
Proof. intros st. by apply quiet_push. Qed.

Lemma quietM_the_session : quietM the_session.
Proof. intros st. unfold the_session. destruct (session st); apply quiet_refl. Qed.

Lemma quiet_setTimeout (why : string) (delay : Z) (st : State) :
  quiet st (setTimeout why delay st).2.
Proof. by apply quiet_same. Qed.

Lemma quietM_gemini_connect (handshake : bool) (voice : string) :
  quietM (gemini_connect handshake voice).
Proof.
  intros st. unfold gemini_connect.
  destruct handshake; (split; [done|]); exists [GeminiOpen voice];
    (split; [done|]); by apply normal_closes_other.
Qed.

Lemma quietM_handleMedia_try (s : CallSession) (m : MediaInfo) :
  quietM (handleMedia_try s m).
Proof.
  unfold handleMedia_try.
  repeat (apply quietM_bind; [|intros ?]).
  - apply quietM_act. intros st. by apply quiet_same.
  - apply quietM_act. intros st. apply quiet_clearIfSet.
  - apply quietM_act. intros st. by apply quiet_same.
  - apply quietM_act. intros st.
    destruct (rms_exceeds _ _); [by apply quiet_push|apply quiet_refl].
  - apply quietM_queryConnected.
  - destruct (negb _); [apply quietM_ret|].
    apply quietM_bind; [apply quietM_lift|intros ?].
    by apply quietM_guarded_send.
Qed.

Lemma quietM_on_turnComplete : quietM on_turnComplete.
Proof.
  unfold on_turnComplete.
  apply quietM_bind; [apply quietM_the_session|intros s].
  apply quietM_bind; [apply quietM_act; intros st; by apply quiet_same|intros _].
  destruct (5 <=? _); [|apply quietM_ret].
  apply quietM_act. intros st. apply quiet_setTimeout.
Qed.

Lemma quietM_on_functionCall (call : FunctionCall) :
  quietM (on_functionCall call).
Proof.
  unfold on_functionCall.
  apply quietM_bind; [apply quietM_lift|intros res].
  apply quietM_bind; [by apply quietM_guarded_send|intros _].
  destruct (bool_decide _); [|apply quietM_ret].
  apply quietM_act. intros st. apply quiet_setTimeout.
Qed.

Lemma quietM_on_part (part : Part) : quietM (on_part part).
Proof.
  unfold on_part. apply quietM_bind; [|intros _].
  - destruct (inlineData part) as [d|]; [|apply quietM_ret].
    destruct (String.prefix _ _); [|apply quietM_ret].
    apply quietM_bind; [apply quietM_lift|intros pcm].
    apply quietM_bind; [apply quietM_the_session|intros s].
    apply quietM_act. intros st. by apply quiet_push.
  - destruct (text part) as [t|]; [|apply quietM_ret].
    destruct (decide (t = "")); [apply quietM_ret|].
    apply quietM_bind; [apply quietM_the_session|intros s].
    apply quietM_bind; [intros st; by apply quiet_same|intros _].
    destruct (existsb _ _); [|apply quietM_ret].
    apply quietM_act. intros st. apply quiet_setTimeout.
Qed.

Lemma quietM_on_response (r : GeminiResponse) : quietM (on_response r).
Proof.
  unfold on_response.
  apply quietM_bind; [|intros _].
  - destruct (turnComplete r); [apply quietM_on_turnComplete|apply quietM_ret].
  - apply quietM_bind; [|intros _].
    + apply quietM_forM, quietM_on_functionCall.
    + apply quietM_forM, quietM_on_part.
Qed.

(** The handlers. *)

Lemma tame_handleMedia (m : TwilioStreamMessage) (st : State) :
  tame st (handleMedia m st).
Proof.
  unfold handleMedia.
  destruct (media m) as [mi|]; [|apply tame_refl].
  destruct (session st) as [s|]; [|apply tame_refl].
  destruct (decide _); [|apply tame_refl].
  apply quiet_tame, quietM_handleMedia_try.
Qed.

Lemma tame_receiveFromGemini (r : GeminiResponse) (st : State) :
  tame st (receiveFromGemini r st).
Proof.
  unfold receiveFromGemini.
  destruct (session st) as [s|]; [|apply tame_refl].
  destruct (_ && _); [|apply tame_refl].
  pose proof (quietM_on_response r st) as Hq.
  destruct (on_response r st) as [[u|e] st1]; [by apply quiet_tame|].
  eapply tame_trans; [apply quiet_tame, Hq|apply tame_endCall].
Qed.

Lemma tame_handleStart (h : bool) (m : TwilioStreamMessage) (st : State) :
  tame st (handleStart h m st).
Proof.
  unfold handleStart.
  destruct (start m) as [info|]; [|apply tame_refl].
  set (st0 := match customParameters info with Some _ => _ | None => _ end).
  assert (quiet st st0) as H0.
  { subst st0. destruct (customParameters info); [by apply quiet_same|apply quiet_refl]. }
  eapply tame_trans; [apply quiet_tame, H0|]. clearbody st0.
  match goal with |- context [bind ?a ?b st0] => set (body := bind a b) end.
  assert (quietM body) as Hb.
  { subst body. apply quietM_bind; [apply quietM_gemini_connect|intros _].
    apply quietM_bind; [|intros _; by apply quietM_guarded_send].
    apply quietM_act. intros x. by apply quiet_same. }
  specialize (Hb st0). clearbody body.
  destruct (body st0) as [[u|e] st1]; [by apply quiet_tame|].
  eapply tame_trans; [apply quiet_tame, Hb|apply tame_ws_close_error].
Qed.

Lemma tame_cleanup (st : State) : tame st (cleanup st).
Proof.
  unfold cleanup.
  set (st1 := match session st with Some _ => _ | None => _ end).
  assert (tame st st1) as H1.
  { subst st1. destruct (session st) as [s|]; [|apply tame_refl].
    destruct (isActive s); [apply tame_endCall|apply tame_refl]. }
  clearbody st1.
  eapply tame_trans; [exact H1|].
  eapply tame_trans; apply quiet_tame, quiet_clearIfSet.
Qed.

Lemma tame_run_timer (t : Timer) (st : State) : tame st (run_timer t st).
Proof.
  unfold run_timer.
  eapply tame_trans; [|apply tame_endCall].
  apply quiet_tame. by apply quiet_same.
Qed.

Lemma tame_fire (fuel : nat) (target : Z) (st : State) :
  tame st (fire fuel target st).
Proof.
  revert st. induction fuel as [|fuel IH]; intros st; [apply tame_refl|].
  simpl. destruct (next_due target (timers st)) as [t|]; [|apply tame_refl].
  eapply tame_trans; [apply tame_run_timer|apply IH].
Qed.

Lemma tame_elapse (ms : Z) (st : State) : tame st (elapse ms st).
Proof.
  unfold elapse.
  eapply tame_trans; [apply tame_fire|].
  apply quiet_tame. by apply quiet_same.
Qed.

Lemma tame_socket_closed (st : State) : tame st (set_twilioWs CLOSED st).
Proof.
  split; [done|]. exists []. split; [by rewrite app_nil_r|].
  split; [|done]. cbn. lia.
Qed.

Lemma tame_step (st : State) (e : Event) : tame st (step st e).
Proof.
  destruct e as [m h| | |r|ms]; simpl.
  - destruct (event m);
      [apply tame_handleStart|apply tame_handleMedia|apply tame_endCall].
  - eapply tame_trans; [apply tame_socket_closed|apply tame_cleanup].
  - apply tame_cleanup.
  - apply tame_receiveFromGemini.
  - apply tame_elapse.
Qed.

Lemma tame_run (es : list Event) (st : State) : tame st (run es st).
Proof.
  revert st. induction es as [|e es IH]; intros st; [apply tame_refl|].
  simpl. eapply tame_trans; [apply tame_step|apply IH].
Qed.

End Tame.

(** Property X28.  Over any sequence of events the handler calls
    [ws.close(1000, ...)] on the telephony socket at most once: from a
    state whose trace has at most one such close, and none while the
    socket is still open, every run keeps it that way; and once the
    socket is no longer open it is never reopened and no such close is
    added. *)
Theorem normal_close_at_most_once (es : list Event) (st : State) :
  closed_once st →
  closed_once (run es st) ∧
  (twilioWs st ≠ OPEN →
   twilioWs (run es st) ≠ OPEN ∧
   normal_closes (trace (run es st)) = normal_closes (trace st)).
Proof.
  intros Hc. pose proof (tame_run es st) as Ht.
  split; [by eapply closed_once_tame|].
  intros Hno. destruct Ht as [Ho (ops & Htr & Hb & _)].
  split; [tauto|].
  rewrite Htr, normal_closes_app.
  rewrite bool_decide_eq_false_2 in Hb by done. lia.
Qed.

Lemma normal_close_at_most_once_witness :
  closed_once (run [Message start_CA1 true; Message stop_msg true; SocketClose]
                 (initial ∅ idle_client)).
Proof.
  apply (normal_close_at_most_once _ (initial ∅ idle_client)).
  split; [cbn; lia|done].
Defined.

Lemma connected_client_ok : queue_ok connected_client.
Proof.
  split; [constructor|].
  split; [intros p Hp; by apply elem_of_nil in Hp|].
  split; intros p Hp; by apply elem_of_nil in Hp.
Qed.

Lemma two_waiting_ok : queue_ok two_waiting.
Proof.
  destruct (receive_connected connected_client eq_refl connected_client_ok)
    as (_ & _ & _ & _ & _ & Hok).
  by destruct (receive_connected (LiveClient.receive connected_client).2
                 eq_refl Hok) as (_ & _ & _ & _ & _ & Hok2).
Qed.

Lemma messages_in_order_witness :
  LiveClient.settled
    (foldl (λ c r, LiveClient.onMessage r c) two_waiting
       [audio_response [1]; audio_response [2]])
  = [(0%nat, Some (audio_response [1])); (1%nat, Some (audio_response [2]))].
Proof.
  exact (proj1 (messages_in_order two_waiting
                  [audio_response [1]; audio_response [2]]
                  eq_refl two_waiting_ok (le_n 2))).
Defined.

Lemma unawaited_message_is_lost_witness :
  LiveClient.settled
    (LiveClient.onMessage (audio_response [2])
       (LiveClient.receive
          (LiveClient.onMessage (audio_response [1]) connected_client)).2)
  = [(0%nat, Some (audio_response [2]))].
Proof.
  exact (proj2 (proj2 (unawaited_message_is_lost connected_client
                         (audio_response [1]) (audio_response [2])
                         eq_refl connected_client_ok eq_refl))).
Defined.

Lemma close_flushes_waiters_witness :
  LiveClient.pendingResponses (LiveClient.close two_waiting) = [] ∧
  LiveClient.can_send (LiveClient.close two_waiting) = false.
Proof.
  destruct (close_flushes_waiters two_waiting (ex_intro _ OPEN eq_refl))
    as (Hq & Hsend & _).
  split; [exact Hq|exact Hsend].
Defined.

Lemma started_later (d : Z) :
  d < 300000 → Forall (λ t, now started + d < due t) (timers started).
Proof.
  intros Hd. change (Forall (λ t, 0 + d < due t) [max_timer]).
  repeat constructor. simpl. lia.
Qed.

Lemma silence_timeout_after_last_media_witness :
  endLog (elapse SILENCE_TIMEOUT (handleMedia quiet_frame started))
    = ["silence_timeout"] ∧
  ended (elapse SILENCE_TIMEOUT (handleMedia quiet_frame started)).
Proof.
  destruct (silence_timeout_after_last_media started quiet_frame
              {| track := inbound; payload := [255; 255] |} session_CA1
              eq_refl eq_refl eq_refl (started_later 15000 eq_refl))
    as (_ & Hlog & Hended & _).
  split; [exact Hlog|exact Hended].
Defined.

Lemma started_tracked : silence_tracked started.
Proof.
  intros t Ht Hr. apply list_elem_of_singleton in Ht. subst t. discriminate Hr.
Qed.

Lemma media_rearms_silence_timer_witness :
  filter (λ t, reason t = "silence_timeout")
         (timers (handleMedia quiet_frame started))
    = [silence_timer started] ∧
  silence_tracked (handleMedia quiet_frame started).
Proof.
  destruct (media_rearms_silence_timer started quiet_frame
              {| track := inbound; payload := [255; 255] |} session_CA1
              eq_refl eq_refl eq_refl started_tracked)
    as (Hone & _ & Htracked).
  split; [exact Hone|exact Htracked].
Defined.


Lemma ai_end_call_request_witness :
  let st1 := receiveFromGemini
    (tool_call {| fc_id := "t1"; fc_name := "end_call";
                  fc_args := Some {[ "reason" := JStr "completed" ]} |}) started in
  endLog (elapse 3000 st1) = ["ai_requested"] ∧ ended (elapse 3000 st1).
Proof.
  destruct (ai_end_call_request started session_CA1 "t1"
              {[ "reason" := JStr "completed" ]}
              eq_refl eq_refl eq_refl (started_later 3000 eq_refl))
    as (_ & _ & _ & Hlog & Hended).
  split; [exact Hlog|exact Hended].
Defined.

Lemma unknown_tool_reply_witness :
  receiveFromGemini
    (tool_call {| fc_id := "t1"; fc_name := "transfer"; fc_args := Some ∅ |})
    started
  = push (GeminiSendToolResponse "t1" "transfer" None None) started.
Proof.
  apply (unknown_tool_reply started session_CA1 "t1" "transfer" (Some ∅)
           eq_refl eq_refl eq_refl).
  discriminate.
Defined.

Lemma end_call_without_args_ends_call_witness :
  let st1 := receiveFromGemini
    (tool_call {| fc_id := "t1"; fc_name := "end_call"; fc_args := None |})
    started in
  endLog st1 = ["error"] ∧ ended st1.
Proof.
  destruct (end_call_without_args_ends_call started session_CA1 "t1"
              eq_refl eq_refl eq_refl) as (Hlog & Hended & _).
  split; [exact Hlog|exact Hended].
Defined.

Lemma audio_part_forwarded_witness :
  ∃ ulaw, receiveFromGemini (inline_part audio_24k) started
            = push (WsSend (MediaEvent "MZ1" ulaw)) started ∧
          length ulaw = 1%nat.
Proof.
  assert (Hf : pcm_frame (data audio_24k)).
  { repeat constructor; unfold INT16_MIN, INT16_MAX; lia. }
  destruct (proj2 (audio_part_forwarded started session_CA1 audio_24k
                     eq_refl eq_refl eq_refl Hf) eq_refl)
    as (ulaw & Hst & Hlen & _).
  exists ulaw. split; [exact Hst|exact Hlen].
Defined.

Lemma ended_is_final_witness :
  ended (run [Message loud_frame true; Response turn_complete;
              Elapse 400000; SocketClose]
           (endCall "completed" started)).
Proof.
  refine (proj1 (ended_is_final (endCall "completed" started) _
                   (proj1 (endCall_ends "completed" started session_CA1 eq_refl))
                   _)).
  repeat constructor; discriminate.
Defined.


Lemma socket_close_ends_call_witness :
  endLog (step started SocketClose) = ["disconnected"] ∧
  ended (step started SocketClose) ∧
  trace (step started SocketClose) = trace started ++ [GeminiSocketClose].
Proof.
  destruct (socket_close_ends_call started session_CA1 eq_refl eq_refl)
    as (Hlog & Hended & _ & Htr & _).
  split; [exact Hlog|]. split; [exact Hended|exact Htr].
Defined.

Lemma max_duration_ends_call_witness :
  endLog (elapse MAX_CALL_DURATION started) = ["max_duration"] ∧
  ended (elapse MAX_CALL_DURATION started).
Proof.
  destruct (max_duration_ends_call (initial ∅ idle_client) start_CA1
              {| start_streamSid := "MZ1"; start_callSid := "CA1";
                 customParameters := None |} eq_refl (Forall_nil_2 _))
    as (_ & _ & Hlog & Hended & _).
  split; [exact Hlog|exact Hended].
Defined.

Lemma quiet_frame_sends_no_clear_witness :
  clears (trace (handleMedia quiet_frame started)) = clears (trace started).
Proof.
  assert (Hq : Forall (λ y, Z.abs y ≤ BARGE_IN_THRESHOLD) (ulaw2pcm [255; 255])).
  { change (Forall (λ y, Z.abs y ≤ BARGE_IN_THRESHOLD) [0; 0]).
    repeat constructor; discriminate. }
  exact (proj2 (quiet_frame_sends_no_clear started quiet_frame
                  {| track := inbound; payload := [255; 255] |} session_CA1
                  eq_refl eq_refl eq_refl Hq)).
Defined.

(** Property X29.  When the socket of the AI link closes, every waiting
    [receive] is resolved with null and nothing else is resolved; the
    client can no longer send, ignores later messages, and a later
    [receive] returns null at once without queueing.  The queue itself
    keeps its entries: the close handler searches it for [resolve],
    while the queue holds the wrapper. *)
Theorem socket_close_releases_waiters (c : LiveClient.Client) :
  queue_ok c →
  let c' := LiveClient.onSocketClose c in
  (∀ p, p ∈ LiveClient.pendingResponses c → p ∈ (LiveClient.settled c').*1) ∧
  (∃ extra, LiveClient.settled c' = LiveClient.settled c ++ extra ∧
            Forall (λ e, e.2 = None ∧ e.1 ∈ LiveClient.pendingResponses c) extra) ∧
  LiveClient.pendingResponses c' = LiveClient.pendingResponses c ∧
  LiveClient.can_send c' = false ∧
  (∀ r, LiveClient.onMessage r c' = c') ∧
  LiveClient.settled (LiveClient.receive c').2
    = LiveClient.settled c' ++ [(LiveClient.nextPromise c, None)] ∧
  LiveClient.pendingResponses (LiveClient.receive c').2
    = LiveClient.pendingResponses c.
Proof.
  intros (Hnd & Hfresh & Hlt & Hplt) c'.
  set (c0 := {| LiveClient.ws := (λ _, CLOSED) <$> LiveClient.ws c;
                LiveClient.setupComplete := false;
                LiveClient.pendingResponses := LiveClient.pendingResponses c;
                LiveClient.nextPromise := LiveClient.nextPromise c;
                LiveClient.settled := LiveClient.settled c |}).
  destruct (flush_settles (LiveClient.pendingResponses c) c0)
    as (Hp & Hs & Hw & Hn & (extra & He & Hall) & Hin).
  change (foldl _ c0 _) with c' in *.
  simpl in Hp, Hs, Hw, Hn, He.
  split; [exact Hin|]. split; [by exists extra|]. split; [exact Hp|].
  split; [unfold LiveClient.can_send; rewrite Hs; apply andb_false_r|].
  split; [intros r; unfold LiveClient.onMessage; by rewrite Hs|].
  unfold LiveClient.receive. cbn [LiveClient.setupComplete LiveClient.ws].
  rewrite Hs, orb_true_r. cbn [snd].
  rewrite Hn.
  match goal with |- context [LiveClient.resolve ?p ?v ?x] =>
    destruct (resolve_fresh p v x) as (Hs' & Hp' & _) end.
  { cbn [LiveClient.settled]. rewrite He, fmap_app. intros Hx.
    apply elem_of_app in Hx as [Hx|Hx].
    - apply Hlt in Hx. lia.
    - apply list_elem_of_fmap in Hx as (e & Hfst & Hx).
      apply (proj1 (Forall_forall _ _) Hall) in Hx as [_ Hx].
      rewrite <- Hfst in Hx. apply Hplt in Hx. lia. }
  rewrite Hs', Hp'. by cbn.
Qed.

Lemma socket_close_releases_waiters_witness :
  LiveClient.settled (LiveClient.onSocketClose two_waiting)
    = [(0%nat, None); (1%nat, None)] ∧
  LiveClient.pendingResponses (LiveClient.onSocketClose two_waiting)
    = [0%nat; 1%nat].
Proof.
  destruct (socket_close_releases_waiters two_waiting two_waiting_ok)
    as (_ & _ & Hq & _).
  split; [reflexivity|exact Hq].
Defined.
